(** * Benthos: codec readers and Bloblang query methods

    A shallow embedding of
    - [internal/codec/reader.go]: the acknowledgement life cycle of the codec
      readers, the [auto] codec and the [multipart] wrapper;
    - [internal/bloblang/query]: the [slice] and [sum] methods, the function
      registry ([FunctionSet]) and the arithmetic operators exercised by
      [arithmetic_test.go].

    Go's [context.Context] arguments are dropped: none of the modelled
    functions inspects them.  A Go [error] that may be [nil] is an
    [option error]. *)

From Stdlib Require Import ZArith List String Ascii Bool Lia Floats.
From stdpp Require Import base gmap strings list pretty.

Local Open Scope string_scope.
Local Open Scope Z_scope.

(** ** Machine integers *)

Definition wrap32 (z : Z) : Z := (z + 2 ^ 31) mod 2 ^ 32 - 2 ^ 31.
Definition wrap64 (z : Z) : Z := (z + 2 ^ 63) mod 2 ^ 64 - 2 ^ 63.
Definition in_int64 (z : Z) : Prop := - 2 ^ 63 <= z < 2 ^ 63.

Lemma wrap32_small z : - 2 ^ 31 <= z < 2 ^ 31 -> wrap32 z = z.
Proof. intros H. unfold wrap32. rewrite Z.mod_small; lia. Qed.

Lemma wrap64_small z : in_int64 z -> wrap64 z = z.
Proof. unfold in_int64, wrap64. intros H. rewrite Z.mod_small; lia. Qed.

Lemma wrap32_zero_iff z : wrap32 z = 0 <-> (z mod 2 ^ 32 = 0).
Proof.
  unfold wrap32. split; intros H.
  - assert (E : (z + 2 ^ 31) mod 2 ^ 32 = 2 ^ 31) by lia.
    rewrite <- (Z.add_simpl_r z (2 ^ 31)) at 1.
    rewrite Zminus_mod, E. reflexivity.
  - rewrite Zplus_mod, H. reflexivity.
Qed.

(** ** Errors *)

Module Errors.

(** Go error values: the sentinel [io.EOF], an error made by [errors.New] or
    a verb-less [fmt.Errorf], and an error wrapping another with [%w]. *)
Inductive error : Type :=
  | io_EOF
  | errors_New (msg : string)
  | wrapped (msg : string) (inner : error).

Definition error_eqb_EOF (e : error) : bool :=
  match e with io_EOF => true | _ => false end.

(** [errors.Is(err, io.EOF)]: [io.EOF] occurs in the chain of [err]. *)
Fixpoint errors_Is_EOF (e : error) : bool :=
  match e with
  | io_EOF => true
  | errors_New _ => false
  | wrapped _ inner => errors_Is_EOF inner
  end.

Definition shutdown : error := errors_New "service shutting down".

End Errors.
Export Errors.

(** The outcome of running a piece of Go code under a loop budget. *)
Inductive run (A : Type) : Type :=
  | Done (a : A)
  | Panicked
  | Starved.
Arguments Done {A} a.
Arguments Panicked {A}.
Arguments Starved {A}.

(** ** internal/codec/reader.go *)

Module Codec.

(** [types.Part] as far as the readers touch it: the raw payload given to
    [message.NewPart] and the object stored by [SetJSON] (csv only). *)
Record Part : Type := mkPart {
  part_data : list Byte.byte;
  part_json : option (list (string * string));
}.

Definition NewPart (b : list Byte.byte) : Part := mkPart b None.
Definition SetJSON (obj : list (string * string)) (p : Part) : Part :=
  mkPart (part_data p) (Some obj).

(** [Next] returns [(parts, ack, nil)] or [(nil, nil, err)].  The ack of a
    batch may itself be [nil] (the chunker can return [(nil, nil, nil)]). *)
Inductive next_result (A : Type) : Type :=
  | Batch (parts : list Part) (ack : option A)
  | Fail (e : error).
Arguments Batch {A} parts ack.
Arguments Fail {A} e.

(** *** The source acknowledgement

    The [ReaderAckFn] handed to a constructor is an opaque callback.  Its
    calls are recorded in [fired], in order, with the error it was given;
    [fn_ret] is what the callback answers. *)
Record ack_cell : Type := mkCell {
  fn_ret : option error -> option error;
  once_done : bool;
  fired : list (option error);
}.

Definition new_cell (fn : option error -> option error) : ack_cell :=
  mkCell fn false [].

(** Calling the callback itself. *)
Definition call_fn (err : option error) (c : ack_cell) : option error * ack_cell :=
  (fn_ret c err, mkCell (fn_ret c) (once_done c) (fired c ++ [err])).

(** Calling the closure returned by [ackOnce]: [once.Do] runs the callback
    the first time only; later calls return the zero [ackErr]. *)
Definition ackOnce (err : option error) (c : ack_cell) : option error * ack_cell :=
  if once_done c then (None, c)
  else let '(r, c') := call_fn err c in
       (r, mkCell (fn_ret c') true (fired c')).

(** *** What the underlying byte source answers

    The scanners and decoders of Go's standard library are the readers'
    environment: the n-th read of a source is a function of n. *)

(** [bufio.Scanner]: [Scan()] is true with [Bytes()], or false with [Err()]. *)
Inductive scan_out : Type :=
  | Scanned (token : list Byte.byte)
  | ScanStop (err : option error).

(** [csv.Reader.Read]: a record, or an error ([io.EOF] at the end). *)
Inductive csv_out : Type :=
  | CsvRecord (fields : list string)
  | CsvErr (e : error).

(** [io.Reader.Read(buf)]: the bytes copied into [buf] and an error. *)
Inductive read_out : Type :=
  | ReadN (data : list Byte.byte) (err : option error).

(** [tar.Reader]: [Next()] fails, or yields an entry whose content
    [ReadFrom] returns together with an error. *)
Inductive tar_out : Type :=
  | TarNextErr (e : error)
  | TarEntry (content : list Byte.byte) (readErr : option error).

Inductive source : Type :=
  | LinesSrc (scan : nat -> scan_out)
  | DelimSrc (scan : nat -> scan_out)
  | CsvSrc (headers : list string) (read : nat -> csv_out)
  | ChunkerSrc (read : nat -> read_out)
  | TarSrc (next : nat -> tar_out).

(** The fields shared by [linesReader], [csvReader], [customDelimReader],
    [chunkerReader] and [tarReader]; [pos] counts the reads made so far and
    [close_ret] is what [r.Close()] will answer. *)
Record leaf : Type := mkLeaf {
  src : source;
  pos : nat;
  sourceAck : ack_cell;
  finished : bool;
  pending : Z;
  close_ret : option error;
}.

Definition set_cell (c : ack_cell) (a : leaf) : leaf :=
  mkLeaf (src a) (pos a) c (finished a) (pending a) (close_ret a).
Definition set_finished (a : leaf) : leaf :=
  mkLeaf (src a) (pos a) (sourceAck a) true (pending a) (close_ret a).
Definition set_pending (p : Z) (a : leaf) : leaf :=
  mkLeaf (src a) (pos a) (sourceAck a) (finished a) p (close_ret a).
Definition advance (a : leaf) : leaf :=
  mkLeaf (src a) (S (pos a)) (sourceAck a) (finished a) (pending a) (close_ret a).

(** [newLinesReader], [newCSVReader] (after the header row),
    [newCustomDelimReader], [newChunkerReader], [newTarReader]. *)
Definition new_leaf (s : source) (fn : option error -> option error)
    (close_ret : option error) : leaf :=
  mkLeaf s 0 (new_cell fn) false 0 close_ret.

(** [a.sourceAck(ctx, err)] with the result dropped or returned. *)
Definition fire (err : option error) (a : leaf) : option error * leaf :=
  let '(r, c) := ackOnce err (sourceAck a) in (r, set_cell c a).

(** The five [ack] methods are the same text. *)
Definition leaf_ack (err : option error) (a : leaf) : option error * leaf :=
  let a := set_pending (wrap32 (pending a - 1)) a in
  let doAck := (pending a =? 0) && finished a in
  match err with
  | Some _ => fire err a
  | None => if doAck then fire None a else (None, a)
  end.

(** The five [Close] methods are the same text. *)
Definition leaf_Close (a : leaf) : option error * leaf :=
  let a := if negb (finished a) then snd (fire (Some shutdown) a) else a in
  let a := if pending a =? 0 then snd (fire None a) else a in
  (close_ret a, a).

Definition incr_pending (a : leaf) : leaf := set_pending (wrap32 (pending a + 1)) a.

(** [linesReader.Next] and [customDelimReader.Next]. *)
Definition scanner_Next (scan : nat -> scan_out) (a : leaf) : next_result unit * leaf :=
  match scan (pos a) with
  | Scanned token => (Batch [NewPart token] (Some tt), incr_pending (advance a))
  | ScanStop None => (Fail io_EOF, set_finished (advance a))
  | ScanStop (Some e) => (Fail e, snd (fire (Some e) (advance a)))
  end.

(** [csvReader.Next]: the record is zipped with the header row. *)
Definition csv_Next (headers : list string) (read : nat -> csv_out) (a : leaf)
    : next_result unit * leaf :=
  match read (pos a) with
  | CsvErr e =>
      if error_eqb_EOF e then (Fail e, set_finished (advance a))
      else (Fail e, snd (fire (Some e) (advance a)))
  | CsvRecord records =>
      (Batch [SetJSON (combine headers records) (NewPart [])] (Some tt),
       incr_pending (advance a))
  end.

(** [chunkerReader.Next]. *)
Definition chunker_Next (read : nat -> read_out) (a : leaf) : next_result unit * leaf :=
  if finished a then (Fail io_EOF, a)
  else
    match read (pos a) with
    | ReadN data err =>
        let a := advance a in
        let stop :=
          match err with
          | Some e => if error_eqb_EOF e then inl (set_finished a)
                      else inr (Fail e, snd (fire (Some e) a))
          | None => inl a
          end in
        match stop with
        | inr out => out
        | inl a =>
            if 0 <? Z.of_nat (length data)
            then (Batch [NewPart data] (Some tt), incr_pending a)
            else match err with
                 | Some e => (Fail e, a)
                 | None => (Batch [] None, a)
                 end
        end
    end.

(** [tarReader.Next]. *)
Definition tar_Next (next : nat -> tar_out) (a : leaf) : next_result unit * leaf :=
  match next (pos a) with
  | TarEntry content None =>
      (Batch [NewPart content] (Some tt), incr_pending (advance a))
  | TarEntry _ (Some e) => (Fail e, snd (fire (Some e) (advance a)))
  | TarNextErr e =>
      if error_eqb_EOF e then (Fail e, set_finished (advance a))
      else (Fail e, snd (fire (Some e) (advance a)))
  end.

Definition leaf_Next (a : leaf) : next_result unit * leaf :=
  match src a with
  | LinesSrc scan | DelimSrc scan => scanner_Next scan a
  | CsvSrc headers read => csv_Next headers read a
  | ChunkerSrc read => chunker_Next read a
  | TarSrc next => tar_Next next a
  end.

(** *** [allBytesReader]

    Built by [partReader] as [&allBytesReader{r, fn, false}]: its [ack] field
    is the callback as given, not an [ackOnce] closure. *)
Record allBytes : Type := mkAllBytes {
  ab_readAll : list Byte.byte + error;     (* what [ioutil.ReadAll(a.i)] answers *)
  ab_ack : ack_cell;
  ab_consumed : bool;
  ab_close_ret : option error;
}.


Definition ab_call (err : option error) (a : allBytes) : option error * allBytes :=
  let '(r, c) := call_fn err (ab_ack a) in
  (r, mkAllBytes (ab_readAll a) c (ab_consumed a) (ab_close_ret a)).

Definition allBytes_Next (a : allBytes) : next_result unit * allBytes :=
  if ab_consumed a then (Fail io_EOF, a)
  else
    let a := mkAllBytes (ab_readAll a) (ab_ack a) true (ab_close_ret a) in
    match ab_readAll a with
    | inr e => (Fail e, snd (ab_call (Some e) a))
    | inl b => (Batch [NewPart b] (Some tt), a)
    end.

Definition allBytes_Close (a : allBytes) : option error * allBytes :=
  let a := if negb (ab_consumed a) then snd (ab_call (Some shutdown) a) else a in
  (ab_close_ret a, a).

(** *** The [Reader] interface

    A reader is its state, the handles of the ack closures it gives out,
    and the three things a consumer can do with it.  [rNext] takes a budget
    for the loop of the multipart wrapper; [rFired] reads the calls the
    source acknowledgement has received so far. *)
Record Reader : Type := mkReader {
  rstate : Type;
  rack : Type;
  rNext : nat -> rstate -> run (next_result rack * rstate);
  rAck : rack -> option error -> rstate -> run (option error * rstate);
  rClose : rstate -> option error * rstate;
  rFired : rstate -> list (option error);
  rFresh : rstate -> Prop;
}.

(** A freshly constructed leaf: nothing read, nothing pending, not fired. *)
Definition fresh_leaf (a : leaf) : Prop :=
  pos a = 0%nat /\ finished a = false /\ pending a = 0 /\
  once_done (sourceAck a) = false /\ fired (sourceAck a) = [].

Definition leafReader : Reader :=
  {| rstate := leaf;
     rack := unit;
     rNext := fun _ a => Done (leaf_Next a);
     rAck := fun _ err a => Done (leaf_ack err a);
     rClose := leaf_Close;
     rFired := fun a => fired (sourceAck a);
     rFresh := fresh_leaf |}.

Definition allBytesReader : Reader :=
  {| rstate := allBytes;
     rack := unit;
     rNext := fun _ a => Done (allBytes_Next a);
     rAck := fun _ err a => Done (ab_call err a);
     rClose := allBytes_Close;
     rFired := fun a => fired (ab_ack a);
     rFresh := fun a => ab_consumed a = false /\ fired (ab_ack a) = [] |}.

(** *** [multipartReader] *)

(** [Part.Get()] belongs to [lib/message]: a parameter of the wrapper. *)
Section Multipart.
Variable Get : Part -> list Byte.byte.
Variable child : Reader.

Definition isEmpty (p : list Part) : bool :=
  match p with
  | [] => true
  | [p0] => Z.of_nat (length (Get p0)) =? 0
  | _ => false
  end.

(** The closure [ackFn] of [multipartReader.Next], called with the value
    [acks] has when [Next] returns: every captured ack is called with the
    same [err], its result is dropped, and [nil] is returned.  Calling a
    [nil] function value panics. *)
Fixpoint mp_ackFn (acks : list (option (rack child))) (err : option error)
    (st : rstate child) : run (option error * rstate child) :=
  match acks with
  | [] => Done (None, st)
  | None :: _ => Panicked
  | Some fn :: rest =>
      match rAck child fn err st with
      | Done (_, st') => mp_ackFn rest err st'
      | Panicked => Panicked
      | Starved => Starved
      end
  end.

(** The [for] loop of [multipartReader.Next]; [parts] and [acks] are the
    two local slices.  One unit of [fuel] is one iteration. *)
Fixpoint mp_loop (fuel : nat) (parts : list Part)
    (acks : list (option (rack child))) (st : rstate child)
    : run (next_result (list (option (rack child))) * rstate child) :=
  match fuel with
  | O => Starved
  | S fuel' =>
      match rNext child fuel' st with
      | Panicked => Panicked
      | Starved => Starved
      | Done (Fail err, st1) =>
          if errors_Is_EOF err && (0 <? Z.of_nat (length parts))
          then Done (Batch parts (Some acks), st1)
          else Done (Fail err, st1)
      | Done (Batch newParts ack, st1) =>
          if isEmpty newParts then
            match ack with
            | None => Panicked
            | Some fn =>
                match rAck child fn None st1 with
                | Panicked => Panicked
                | Starved => Starved
                | Done (_, st2) =>
                    if 0 <? Z.of_nat (length parts)
                    then Done (Batch parts (Some acks), st2)
                    else mp_loop fuel' parts acks st2
                end
            end
          else mp_loop fuel' (parts ++ newParts) (acks ++ [ack]) st1
      end
  end.

Definition multipart_Next (fuel : nat) (st : rstate child) :=
  mp_loop fuel [] [] st.

Definition multipartReader : Reader :=
  {| rstate := rstate child;
     rack := list (option (rack child));
     rNext := multipart_Next;
     rAck := mp_ackFn;
     rClose := rClose child;
     rFired := rFired child;
     rFresh := rFresh child |}.

End Multipart.


(** *** Consumers

    What a consumer does with a reader, one call after another. *)
Inductive call (A : Type) : Type :=
  | CallNext (fuel : nat)
  | CallAck (ack : A) (err : option error)
  | CallClose.
Arguments CallNext {A} fuel.
Arguments CallAck {A} ack err.
Arguments CallClose {A}.

Definition step (r : Reader) (c : call (rack r)) (st : rstate r) : run (rstate r) :=
  match c with
  | CallNext fuel =>
      match rNext r fuel st with
      | Done (_, st') => Done st'
      | Panicked => Panicked
      | Starved => Starved
      end
  | CallAck ack err =>
      match rAck r ack err st with
      | Done (_, st') => Done st'
      | Panicked => Panicked
      | Starved => Starved
      end
  | CallClose => Done (snd (rClose r st))
  end.

Fixpoint exec (r : Reader) (tr : list (call (rack r))) (st : rstate r) : run (rstate r) :=
  match tr with
  | [] => Done st
  | c :: tr' =>
      match step r c st with
      | Done st' => exec r tr' st'
      | Panicked => Panicked
      | Starved => Starved
      end
  end.

(** *** Single fire of the wrapped source acknowledgement *)

(** The log of an [ackOnce] cell has one entry once the guard is spent and
    none before. *)
Definition cell_ok (c : ack_cell) : Prop :=
  length (fired c) = if once_done c then 1%nat else 0%nat.

Lemma new_cell_ok fn : cell_ok (new_cell fn).
Proof. reflexivity. Qed.

Lemma ackOnce_ok err c : cell_ok c -> cell_ok (snd (ackOnce err c)).
Proof.
  unfold cell_ok, ackOnce, call_fn. destruct (once_done c) eqn:E; simpl.
  - now rewrite E.
  - intros H. rewrite length_app, H. reflexivity.
Qed.

Lemma ackOnce_spent err c : once_done (snd (ackOnce err c)) = true.
Proof. unfold ackOnce, call_fn. destruct (once_done c) eqn:E; simpl; auto. Qed.

Definition leaf_ok (a : leaf) : Prop := cell_ok (sourceAck a).

Lemma fire_ok err a : leaf_ok a -> leaf_ok (snd (fire err a)).
Proof.
  unfold leaf_ok, fire. intros H.
  pose proof (ackOnce_ok err _ H) as H'.
  destruct (ackOnce err (sourceAck a)) as [r c]. exact H'.
Qed.

Lemma leaf_ack_ok err a : leaf_ok a -> leaf_ok (snd (leaf_ack err a)).
Proof.
  intros H. unfold leaf_ack.
  set (a1 := set_pending _ a). assert (H1 : leaf_ok a1) by exact H.
  destruct err; [now apply fire_ok|].
  destruct (_ && _); [now apply fire_ok | exact H1].
Qed.

Lemma leaf_Close_ok a : leaf_ok a -> leaf_ok (snd (leaf_Close a)).
Proof.
  intros H. unfold leaf_Close. simpl.
  set (a1 := if negb (finished a) then _ else a).
  assert (H1 : leaf_ok a1).
  { subst a1. destruct (negb (finished a)); [now apply fire_ok | exact H]. }
  destruct (pending a1 =? 0); [now apply fire_ok | exact H1].
Qed.

Lemma leaf_Next_ok a : leaf_ok a -> leaf_ok (snd (leaf_Next a)).
Proof.
  intros H. unfold leaf_Next.
  assert (Hadv : leaf_ok (advance a)) by exact H.
  destruct (src a) as [scan|scan|headers read|read|next].
  - unfold scanner_Next. destruct (scan (pos a)) as [t|[e|]]; simpl; auto.
    now apply fire_ok.
  - unfold scanner_Next. destruct (scan (pos a)) as [t|[e|]]; simpl; auto.
    now apply fire_ok.
  - unfold csv_Next. destruct (read (pos a)) as [rec|e]; simpl; auto.
    destruct (error_eqb_EOF e); simpl; auto. now apply fire_ok.
  - unfold chunker_Next. destruct (finished a); simpl; auto.
    destruct (read (pos a)) as [data [e|]]; simpl.
    + destruct (error_eqb_EOF e); simpl.
      * destruct (0 <? _); simpl; auto.
      * now apply fire_ok.
    + destruct (0 <? _); simpl; auto.
  - unfold tar_Next. destruct (next (pos a)) as [e|content [e|]]; simpl; auto.
    + destruct (error_eqb_EOF e); simpl; auto. now apply fire_ok.
    + now apply fire_ok.
Qed.

(** An invariant of a reader: every call a consumer can make keeps it. *)
Definition preserves (r : Reader) (I : rstate r -> Prop) : Prop :=
  (forall fuel st res st', I st -> rNext r fuel st = Done (res, st') -> I st') /\
  (forall ack err st res st', I st -> rAck r ack err st = Done (res, st') -> I st') /\
  (forall st, I st -> I (snd (rClose r st))).

(** A reader whose source acknowledgement cannot fire twice. *)
Definition guarded (r : Reader) : Prop :=
  exists I : rstate r -> Prop,
    preserves r I /\
    (forall st, rFresh r st -> I st) /\
    (forall st, I st -> (length (rFired r st) <= 1)%nat).

Lemma leaf_preserves : preserves leafReader leaf_ok.
Proof.
  repeat split; simpl.
  - intros _ st res st' H [= E]. pose proof (leaf_Next_ok st H) as H'.
    now rewrite E in H'.
  - intros _ err st res st' H [= E]. pose proof (leaf_ack_ok err st H) as H'.
    now rewrite E in H'.
  - intros st H. now apply leaf_Close_ok.
Qed.

Lemma leaf_guarded : guarded leafReader.
Proof.
  exists leaf_ok. split; [exact leaf_preserves|]. split.
  - intros st (_ & _ & _ & Ho & Hf). unfold leaf_ok, cell_ok. simpl.
    now rewrite Ho, Hf.
  - intros st H. unfold leaf_ok, cell_ok in H. simpl. rewrite H.
    destruct (once_done _); lia.
Qed.

Lemma mp_ackFn_preserves (r : Reader) (I : rstate r -> Prop) :
  preserves r I ->
  forall acks err st res st',
    I st -> mp_ackFn r acks err st = Done (res, st') -> I st'.
Proof.
  intros (_ & Hack & _). induction acks as [|[fn|] rest IH]; simpl; intros err st res st' HI E.
  - now inversion E; subst.
  - destruct (rAck r fn err st) as [[r1 st1]| |] eqn:E1; try discriminate.
    eapply IH; [|exact E]. eapply Hack; eauto.
  - discriminate.
Qed.

Lemma mp_loop_preserves Get (r : Reader) (I : rstate r -> Prop) :
  preserves r I ->
  forall fuel parts acks st res st',
    I st -> mp_loop Get r fuel parts acks st = Done (res, st') -> I st'.
Proof.
  intros (Hnext & Hack & _).
  induction fuel as [|fuel IH]; simpl; intros parts acks st res st' HI E; [discriminate|].
  destruct (rNext r fuel st) as [[[newParts ack|err] st1]| |] eqn:E1; try discriminate.
  - assert (I1 : I st1) by (eapply Hnext; eauto).
    destruct (isEmpty Get newParts).
    + destruct ack as [fn|]; [|discriminate].
      destruct (rAck r fn None st1) as [[r2 st2]| |] eqn:E2; try discriminate.
      assert (I2 : I st2) by (eapply Hack; eauto).
      destruct (0 <? _); [now inversion E; subst | eapply IH; eauto].
    + eapply IH; eauto.
  - assert (I1 : I st1) by (eapply Hnext; eauto).
    destruct (_ && _); now inversion E; subst.
Qed.

Lemma multipart_guarded Get (r : Reader) : guarded r -> guarded (multipartReader Get r).
Proof.
  intros (I & Hp & Hfresh & Hone). exists I. split; [|split; assumption].
  repeat split; simpl.
  - intros fuel st res st' HI E. eapply mp_loop_preserves; eauto.
  - intros ack err st res st' HI E. eapply mp_ackFn_preserves; eauto.
  - destruct Hp as (_ & _ & Hc). exact Hc.
Qed.


Lemma exec_preserves (r : Reader) (I : rstate r -> Prop) :
  preserves r I ->
  forall tr st st', I st -> exec r tr st = Done st' -> I st'.
Proof.
  intros (Hnext & Hack & Hclose).
  induction tr as [|c tr IH]; simpl; intros st st' HI E.
  - now inversion E; subst.
  - destruct (step r c st) as [st1| |] eqn:E1; try discriminate.
    eapply IH; [|exact E]. destruct c as [fuel|ack err|]; simpl in E1.
    + destruct (rNext r fuel st) as [[res s]| |] eqn:E2; try discriminate.
      inversion E1; subst. eapply Hnext; eauto.
    + destruct (rAck r ack err st) as [[res s]| |] eqn:E2; try discriminate.
      inversion E1; subst. eapply Hack; eauto.
    + inversion E1; subst. now apply Hclose.
Qed.

Lemma guarded_at_most_once (r : Reader) :
  guarded r ->
  forall tr st st', rFresh r st -> exec r tr st = Done st' ->
    (length (rFired r st') <= 1)%nat.
Proof.
  intros (I & Hp & Hfresh & Hone) tr st st' Hf E.
  apply Hone. eapply exec_preserves; eauto.
Qed.

(** *** Complete lifetimes

    A consumer drives a reader through [Next], the acks it was given and
    [Close].  [out] counts the parts handed out and not acknowledged yet: an
    ack can only be called for one of them.  The lifetime is complete when
    [Close] has been called and nothing is outstanding. *)
Definition issued {A} (res : next_result A) : nat :=
  match res with
  | Batch _ (Some _) => 1
  | _ => 0
  end.

Fixpoint lifetime (tr : list (call unit)) (a : leaf) (out : nat) (closed : bool)
    : option (leaf * nat * bool) :=
  match tr with
  | [] => Some (a, out, closed)
  | CallNext _ :: tr' =>
      let '(res, a') := leaf_Next a in
      lifetime tr' a' (out + issued res) closed
  | CallAck _ err :: tr' =>
      match out with
      | O => None
      | S out' => lifetime tr' (snd (leaf_ack err a)) out' closed
      end
  | CallClose :: tr' => lifetime tr' (snd (leaf_Close a)) out true
  end.


Lemma wrap32_idem_add x y : wrap32 (wrap32 x + y) = wrap32 (x + y).
Proof.
  unfold wrap32. f_equal.
  replace (((x + 2 ^ 31) mod 2 ^ 32 - 2 ^ 31) + y + 2 ^ 31)
    with ((x + 2 ^ 31) mod 2 ^ 32 + y) by lia.
  rewrite Zplus_mod_idemp_l. f_equal. lia.
Qed.

Lemma wrap32_nat_zero (n : nat) : wrap32 (Z.of_nat n) <> 0 -> (0 < n)%nat.
Proof. destruct n; [intros H; now contradiction H | lia]. Qed.

(** What a call leaves behind: the guard is spent, or nothing was fired and
    the counters moved as the text says. *)
Lemma fire_spent err a : once_done (sourceAck (snd (fire err a))) = true.
Proof.
  unfold fire. pose proof (ackOnce_spent err (sourceAck a)) as H.
  destruct (ackOnce err (sourceAck a)); exact H.
Qed.

Lemma fire_fields err a :
  finished (snd (fire err a)) = finished a /\ pending (snd (fire err a)) = pending a.
Proof. unfold fire. destruct (ackOnce err (sourceAck a)); auto. Qed.

Lemma leaf_ack_cases err a :
  let a' := snd (leaf_ack err a) in
  once_done (sourceAck a') = true \/
  (sourceAck a' = sourceAck a /\ finished a' = finished a /\
   pending a' = wrap32 (pending a - 1) /\
   ((pending a' =? 0) && finished a) = false).
Proof.
  unfold leaf_ack. set (a1 := set_pending _ a). cbv zeta.
  destruct err; [left; apply fire_spent|].
  destruct ((pending a1 =? 0) && finished a1) eqn:E; [left; apply fire_spent|].
  right. subst a1. simpl in *. auto.
Qed.

Lemma leaf_Close_cases a :
  let a' := snd (leaf_Close a) in
  once_done (sourceAck a') = true \/
  (a' = a /\ finished a = true /\ pending a <> 0).
Proof.
  unfold leaf_Close. simpl.
  destruct (finished a) eqn:Ef; simpl.
  - destruct (pending a =? 0) eqn:Ep; [left; apply fire_spent|].
    right. repeat split; auto. now apply Z.eqb_neq.
  - left. destruct (pending _ =? 0); [apply fire_spent|apply fire_spent].
Qed.

Ltac tally_case := repeat split; simpl; auto; try (intros; congruence).

Lemma leaf_Next_cases a :
  let res := fst (leaf_Next a) in
  let a' := snd (leaf_Next a) in
  once_done (sourceAck a') = true \/
  (sourceAck a' = sourceAck a /\
   (finished a = true -> finished a' = true) /\
   pending a' = wrap32 (pending a + Z.of_nat (issued res)) \/
   sourceAck a' = sourceAck a /\
   (finished a = true -> finished a' = true) /\
   issued res = 0%nat /\ pending a' = pending a).
Proof.
  unfold leaf_Next.
  destruct (src a) as [scan|scan|headers read|read|next].
  - unfold scanner_Next. destruct (scan (pos a)) as [t|[e|]]; simpl.
    + right; left; tally_case.
    + left; apply fire_spent.
    + right; right; tally_case.
  - unfold scanner_Next. destruct (scan (pos a)) as [t|[e|]]; simpl.
    + right; left; tally_case.
    + left; apply fire_spent.
    + right; right; tally_case.
  - unfold csv_Next. destruct (read (pos a)) as [rec|e]; simpl.
    + right; left; tally_case.
    + destruct (error_eqb_EOF e); simpl; [right; right; tally_case | left; apply fire_spent].
  - unfold chunker_Next. destruct (finished a) eqn:Ef; simpl.
    + right; right; tally_case.
    + destruct (read (pos a)) as [data [e|]]; simpl.
      * destruct (error_eqb_EOF e); simpl; [|left; apply fire_spent].
        destruct (0 <? _); simpl; [right; left; tally_case | right; right; tally_case].
      * destruct (0 <? _); simpl; [right; left; tally_case | right; right; tally_case].
  - unfold tar_Next. destruct (next (pos a)) as [e|content [e|]]; simpl.
    + destruct (error_eqb_EOF e); simpl; [right; right; tally_case | left; apply fire_spent].
    + left; apply fire_spent.
    + right; left; tally_case.
Qed.

(** While the acknowledgement has not fired, [pending] is the number of
    outstanding parts (as an [int32]), and after [Close] the reader is
    finished with parts outstanding. *)
Definition tally (a : leaf) (out : nat) (closed : bool) : Prop :=
  once_done (sourceAck a) = false ->
  pending a = wrap32 (Z.of_nat out) /\
  (closed = true -> finished a = true /\ (0 < out)%nat).

Lemma lifetime_tally tr : forall a out closed a' out' closed',
  tally a out closed ->
  lifetime tr a out closed = Some (a', out', closed') ->
  tally a' out' closed'.
Proof.
  induction tr as [|c tr IH]; simpl; intros a out closed a' out' closed' T E.
  - now inversion E; subst.
  - destruct c as [fuel|[] err|].
    + pose proof (leaf_Next_cases a) as C. destruct (leaf_Next a) as [res a1].
      simpl in C. eapply IH; [|exact E]. intros Hu.
      destruct C as [C|[(Hc & Hf & Hp)|(Hc & Hf & Hi & Hp)]]; [congruence| |].
      * rewrite Hc in Hu. destruct (T Hu) as [Tp Tc]. split.
        -- rewrite Hp, Tp, wrap32_idem_add. f_equal. lia.
        -- intros Hcl. destruct (Tc Hcl). split; [auto|lia].
      * rewrite Hc in Hu. destruct (T Hu) as [Tp Tc]. rewrite Hi, Nat.add_0_r.
        split; [congruence|]. intros Hcl. destruct (Tc Hcl). auto.
    + destruct out as [|o]; [discriminate|].
      pose proof (leaf_ack_cases err a) as C. simpl in C.
      eapply IH; [|exact E]. intros Hu.
      destruct C as [C|(Hc & Hf & Hp & Hz)]; [congruence|].
      rewrite Hc in Hu. destruct (T Hu) as [Tp Tc].
      assert (P : pending (snd (leaf_ack err a)) = wrap32 (Z.of_nat o)).
      { rewrite Hp, Tp, <- Z.add_opp_r, wrap32_idem_add. f_equal. lia. }
      split; [exact P|]. intros Hcl. destruct (Tc Hcl) as [Tf _].
      rewrite Hf. split; [exact Tf|].
      rewrite Tf, andb_true_r in Hz. apply Z.eqb_neq in Hz.
      rewrite P in Hz. now apply wrap32_nat_zero.
    + pose proof (leaf_Close_cases a) as C. simpl in C.
      eapply IH; [|exact E]. intros Hu.
      destruct C as [C|(Ha & Hf & Hp)]; [congruence|].
      rewrite Ha in *. destruct (T Hu) as [Tp _]. split; [exact Tp|].
      intros _. split; [exact Hf|]. rewrite Tp in Hp. now apply wrap32_nat_zero.
Qed.

Lemma lifetime_exec tr : forall a out closed a' out' closed',
  lifetime tr a out closed = Some (a', out', closed') ->
  exec leafReader tr a = Done a'.
Proof.
  induction tr as [|c tr IH]; simpl; intros a out closed a' out' closed' E.
  - now inversion E; subst.
  - destruct c as [fuel|[] err|]; simpl.
    + destruct (leaf_Next a) as [res a1]. eapply IH; eauto.
    + destruct out; [discriminate|]. destruct (leaf_ack err a) as [res a1].
      eapply IH; eauto.
    + eapply IH; eauto.
Qed.





(** *** Sample sources *)

Definition no_answer (e : option error) : option error := None.

(** A file of two lines. *)
Definition two_lines : source :=
  LinesSrc (fun n =>
    match n with
    | 0%nat => Scanned [Byte.x61]
    | 1%nat => Scanned [Byte.x62]
    | _ => ScanStop None
    end).

(** An empty file, for each of the five readers. *)
Definition empty_lines : source := LinesSrc (fun _ => ScanStop None).
Definition empty_delim : source := DelimSrc (fun _ => ScanStop None).
Definition empty_csv : source := CsvSrc ["a"; "b"] (fun _ => CsvErr io_EOF).
Definition empty_chunker : source := ChunkerSrc (fun _ => ReadN [] (Some io_EOF)).
Definition empty_tar : source := TarSrc (fun _ => TarNextErr io_EOF).

Definition payload_of (p : Part) : list Byte.byte := part_data p.

(** *** The source acknowledgement over a reader's lifetime *)




(** *** A source without parts *)

(** The n-th read of the source reports the end of the stream, no data. *)
Definition ends_at (s : source) (n : nat) : Prop :=
  match s with
  | LinesSrc scan | DelimSrc scan => scan n = ScanStop None
  | CsvSrc _ read => read n = CsvErr io_EOF
  | ChunkerSrc read => read n = ReadN [] (Some io_EOF)
  | TarSrc next => next n = TarNextErr io_EOF
  end.

(** [k] calls of [Next] in a row, with what each returned. *)
Fixpoint drain (k : nat) (a : leaf) : list (next_result unit) * leaf :=
  match k with
  | O => ([], a)
  | S k' => let '(res, a1) := leaf_Next a in
            let '(rest, a2) := drain k' a1 in (res :: rest, a2)
  end.

Lemma leaf_Next_at_end a :
  ends_at (src a) (pos a) ->
  leaf_Next a = (Fail io_EOF, set_finished (advance a)) \/
  (finished a = true /\ leaf_Next a = (Fail io_EOF, a)).
Proof.
  unfold ends_at, leaf_Next.
  destruct (src a) as [scan|scan|headers read|read|next]; intros H.
  - left. unfold scanner_Next. now rewrite H.
  - left. unfold scanner_Next. now rewrite H.
  - left. unfold csv_Next. now rewrite H.
  - unfold chunker_Next. destruct (finished a); [right; auto|].
    left. now rewrite H.
  - left. unfold tar_Next. now rewrite H.
Qed.

Lemma drain_empty k : forall a,
  (forall n, ends_at (src a) n) ->
  pending a = 0 -> fired (sourceAck a) = [] -> once_done (sourceAck a) = false ->
  let '(results, a') := drain k a in
  results = repeat (Fail io_EOF) k /\
  src a' = src a /\ pending a' = 0 /\
  fired (sourceAck a') = [] /\ once_done (sourceAck a') = false /\
  (finished a = true \/ (0 < k)%nat -> finished a' = true).
Proof.
  induction k as [|k IH]; simpl; intros a He Hp Hf Ho.
  - repeat split; auto. intros [H|H]; [exact H|lia].
  - destruct (leaf_Next_at_end a (He _)) as [E|[Hfin E]]; rewrite E.
    + specialize (IH (set_finished (advance a)) He Hp Hf Ho).
      destruct (drain k (set_finished (advance a))) as [rest a2].
      destruct IH as (-> & Hs & Hp' & Hf' & Ho' & Hfin).
      repeat split; auto.
    + specialize (IH a He Hp Hf Ho).
      destruct (drain k a) as [rest a2].
      destruct IH as (-> & Hs & Hp' & Hf' & Ho' & Hfin').
      repeat split; auto.
Qed.

(** C10.  For lines, csv, delim, chunker and tar over a source without
    parts: every [Next] returns [io.EOF] and leaves the source
    acknowledgement unfired; [Close] after at least one such [Next] fires
    it, once, with [nil]. *)
Theorem eof_then_close_acks_nil (a : leaf) (k : nat) :
  fresh_leaf a ->
  (forall n, ends_at (src a) n) ->
  fst (drain (S k) a) = repeat (Fail io_EOF) (S k) /\
  fired (sourceAck (snd (drain (S k) a))) = [] /\
  fired (sourceAck (snd (leaf_Close (snd (drain (S k) a))))) = [None].
Proof.
  intros (_ & _ & Hp & Ho & Hf) He.
  pose proof (drain_empty (S k) a He Hp Hf Ho) as D.
  destruct (drain (S k) a) as [results a'].
  destruct D as (Hr & _ & Hp' & Hf' & Ho' & Hfin). simpl.
  split; [exact Hr|]. split; [exact Hf'|].
  unfold leaf_Close. simpl. rewrite Hfin by (right; lia). simpl.
  rewrite Hp'. simpl. unfold fire, ackOnce, call_fn. rewrite Ho'. simpl.
  now rewrite Hf'.
Qed.

Lemma eof_then_close_acks_nil_witness :
  Forall (fun s =>
    fst (drain 2 (new_leaf s no_answer None)) = [Fail io_EOF; Fail io_EOF] /\
    fired (sourceAck (snd (drain 2 (new_leaf s no_answer None)))) = [] /\
    fired (sourceAck (snd (leaf_Close (snd (drain 2 (new_leaf s no_answer None)))))) = [None])
  [empty_lines; empty_delim; empty_csv; empty_chunker; empty_tar].
Proof.
  repeat (constructor;
    [apply (eof_then_close_acks_nil (new_leaf _ no_answer None) 1);
     [repeat split | intros n; reflexivity]|]).
  constructor.
Defined.

(** *** The [auto] codec *)

(** A path from its last byte to its first. *)
Definition backwards (path : string) : list ascii := rev (list_ascii_of_string path).

(** [os.IsPathSeparator] on Unix. *)
Definition IsPathSeparator (c : ascii) : bool := Ascii.eqb c "/".

(** [filepath.Ext]: the loop walks from the last byte towards the first,
    stops at a path separator and returns the path from the first dot it
    meets; [seen] is the part already walked over. *)
Fixpoint ext_walk (rest : list ascii) (seen : string) : string :=
  match rest with
  | [] => ""
  | c :: rest' =>
      if IsPathSeparator c then ""
      else if Ascii.eqb c "." then String c seen
      else ext_walk rest' (String c seen)
  end.

Definition Ext (path : string) : string := ext_walk (backwards path) "".

Fixpoint starts_with (l pre : list ascii) {struct pre} : bool :=
  match pre, l with
  | [], _ => true
  | p :: pre', c :: l' => Ascii.eqb c p && starts_with l' pre'
  | _ :: _, [] => false
  end.

(** [strings.HasSuffix]: [s] ends with [suffix]. *)
Definition HasSuffix (s suffix : string) : bool :=
  starts_with (backwards s) (backwards suffix).

(** The codec name [autoCodec] passes on to [GetReader]. *)
Definition autoCodec (path : string) : string :=
  let codec := "all-bytes" in
  let ext := Ext path in
  let codec :=
    if String.eqb ext ".csv" then "csv"
    else if String.eqb ext ".csv.gz" || String.eqb ext ".csv.gzip" then "gzip/csv"
    else if String.eqb ext ".tar" then "tar"
    else if String.eqb ext ".tgz" then "gzip/tar"
    else codec in
  if HasSuffix path ".tar.gzip" then "gzip/tar"
  else if HasSuffix path ".tar.gz" then "gzip/tar"
  else codec.

Lemma backwards_append (a b : string) :
  backwards (String.append a b) = (backwards b ++ backwards a)%list.
Proof.
  unfold backwards. rewrite <- rev_app_distr. f_equal.
  induction a as [|c a IH]; simpl; [reflexivity | now rewrite IH].
Qed.

Ltac by_extension :=
  intros; unfold autoCodec, Ext, HasSuffix;
  rewrite backwards_append; reflexivity.

(** What [autoCodec] does get right. *)
Lemma autoCodec_by_extension (stem : string) :
  autoCodec (String.append stem ".csv") = "csv" /\
  autoCodec (String.append stem ".tar") = "tar" /\
  autoCodec (String.append stem ".tgz") = "gzip/tar" /\
  autoCodec (String.append stem ".tar.gz") = "gzip/tar" /\
  autoCodec (String.append stem ".tar.gzip") = "gzip/tar".
Proof. repeat split; by_extension. Qed.

(** C3 fails on the code for [.csv.gz] and [.csv.gzip]: [filepath.Ext]
    returns the path from its {e last} dot, [.gz] or [.gzip], so the case
    [".csv.gz", ".csv.gzip"] of the switch is never taken and the codec
    stays [all-bytes]. *)
Theorem autoCodec_csv_gz (stem : string) :
  Ext (String.append stem ".csv.gz") = ".gz" /\
  Ext (String.append stem ".csv.gzip") = ".gzip" /\
  autoCodec (String.append stem ".csv.gz") = "all-bytes" /\
  autoCodec (String.append stem ".csv.gzip") = "all-bytes".
Proof.
  repeat split; try by_extension; unfold Ext; rewrite backwards_append; reflexivity.
Qed.

Example autoCodec_data_csv_gz : autoCodec "data.csv.gz" = "all-bytes".
Proof. reflexivity. Qed.

(** [filepath.Ext] never returns a string with a dot past its first byte,
    whatever the path. *)
Lemma ext_walk_dots rest : forall seen,
  ext_walk rest seen = "" \/
  exists tail, ext_walk rest seen = String "." tail /\
    (forall c, In c (list_ascii_of_string tail) ->
       c = "."%char -> In c (list_ascii_of_string seen)).
Proof.
  induction rest as [|c rest IH]; simpl; intros seen; [now left|].
  destruct (IsPathSeparator c); [now left|].
  destruct (Ascii.eqb c ".") eqn:E.
  - right. apply Ascii.eqb_eq in E. subst c. exists seen. auto.
  - destruct (IH (String c seen)) as [H|(tail & H & Hd)]; [now left|].
    right. exists tail. split; [exact H|]. intros d Hin Heq.
    destruct (Hd d Hin Heq) as [Hc|Hc]; [|exact Hc].
    subst. rewrite Ascii.eqb_refl in E. discriminate.
Qed.

Lemma Ext_never_csv_gz path : Ext path <> ".csv.gz" /\ Ext path <> ".csv.gzip".
Proof.
  unfold Ext. destruct (ext_walk_dots (backwards path) "") as [H|(tail & H & Hd)].
  - rewrite H. split; discriminate.
  - rewrite H. split; intros [= ->].
    + destruct (Hd "."%char); simpl; auto.
    + destruct (Hd "."%char); simpl; auto.
Qed.

(** *** Batches of the multipart wrapper *)

Section MultipartFacts.
Variable Get : Part -> list Byte.byte.
Variable child : Reader.

Local Abbreviation loop := (mp_loop Get child).











End MultipartFacts.


(** The lines [a], [b], an empty line, [c], an empty line. *)
Definition two_batches : source :=
  LinesSrc (fun n =>
    match n with
    | 0%nat => Scanned [Byte.x61]
    | 1%nat => Scanned [Byte.x62]
    | 2%nat => Scanned []
    | 3%nat => Scanned [Byte.x63]
    | 4%nat => Scanned []
    | _ => ScanStop None
    end).

Definition lines_multipart : Reader := multipartReader payload_of leafReader.

(** [lines/multipart] over [two_batches]: the batch [a, b], the batch [c],
    then [io.EOF]; only when both batches are acknowledged does the source
    acknowledgement fire. *)
Example lines_multipart_scenario :
  let st0 := new_leaf two_batches no_answer None in
  exists st1 st2 st3 st4 st5,
    rNext lines_multipart 9 st0 =
      Done (Batch [NewPart [Byte.x61]; NewPart [Byte.x62]] (Some [Some tt; Some tt]), st1) /\
    rNext lines_multipart 9 st1 =
      Done (Batch [NewPart [Byte.x63]] (Some [Some tt]), st2) /\
    rNext lines_multipart 9 st2 = Done (Fail io_EOF, st3) /\
    rAck lines_multipart [Some tt; Some tt] None st3 = Done (None, st4) /\
    fired (sourceAck st4) = [] /\
    rAck lines_multipart [Some tt] None st4 = Done (None, st5) /\
    fired (sourceAck st5) = [None].
Proof.
  cbv zeta. do 5 eexists.
  repeat (split; [vm_compute; reflexivity|]). vm_compute; reflexivity.
Qed.





(** A zero-byte read without error makes [chunkerReader.Next] return
    [(nil, nil, nil)]; the wrapper takes it for an empty part and calls the
    [nil] ack. *)
Example chunker_nil_ack_panics :
  multipart_Next payload_of leafReader 2
    (new_leaf (ChunkerSrc (fun _ => ReadN [] None)) no_answer None) = Panicked.
Proof. reflexivity. Qed.




End Codec.

(** ** internal/bloblang/query *)

Module Query.

(** *** Values

    The dynamic values ([interface{}]) the query functions pass around.  Go
    integers keep the type they were boxed with; [json.Number] keeps its
    text; [float64] is the kernel's binary64.  The sentinels [Delete] and
    [Nothing] fall under the default case of every switch below, like
    [VNull], and are left out. *)
Inductive int_kind : Type :=
  | KInt | KInt8 | KInt16 | KInt32 | KInt64
  | KUint | KUint8 | KUint16 | KUint32 | KUint64.

#[local] Set Warnings "-register-all".

Inductive value : Type :=
  | VNull
  | VBool (b : bool)
  | VInt (k : int_kind) (z : Z)
  | VFloat32 (f : float)
  | VFloat64 (f : float)
  | VNumber (text : string)
  | VString (s : string)
  | VBytes (b : list Byte.byte)
  | VArray (elems : list value)
  | VObject (fields : list (string * value)).

Inductive ValueType : Type :=
  | ValueString | ValueBytes | ValueNumber | ValueBool
  | ValueArray | ValueObject | ValueNull.

(** Errors: a formatted message, the type error of [NewTypeError] and
    [NewTypeErrorFrom] (the value met, the kinds accepted and, for the
    latter, the annotation of its origin), and [fmt.Errorf] with [%w]. *)
Inductive qerror : Type :=
  | Errorf (msg : string)
  | TypeError (from : option string) (actual : value) (expected : list ValueType)
  | ErrorfW (msg : string) (inner : qerror).

Definition NewTypeError (v : value) (expected : list ValueType) : qerror :=
  TypeError None v expected.
Definition NewTypeErrorFrom (from : string) (v : value) (expected : list ValueType) : qerror :=
  TypeError (Some from) v expected.

(** *** [slice] *)

(** [t[lo:hi]] panics unless [0 <= lo <= hi <= len(t)]. *)
Definition sliceable (lo hi len : Z) : bool :=
  (0 <=? lo) && (lo <=? hi) && (hi <=? len).

Definition slice_string (t : string) (lo hi : Z) : run string :=
  if sliceable lo hi (Z.of_nat (String.length t))
  then Done (substring (Z.to_nat lo) (Z.to_nat (hi - lo)) t)
  else Panicked.

Definition slice_list {A} (t : list A) (lo hi : Z) : run (list A) :=
  if sliceable lo hi (Z.of_nat (length t))
  then Done (take (Z.to_nat (hi - lo)) (drop (Z.to_nat lo) t))
  else Panicked.

(** The closure [getBounds] of [sliceMethod]; [end_] is the [*int64] that
    is [nil] when the upper bound was omitted. *)
Definition getBounds (start : Z) (end_ : option Z) (l : Z) : Z * Z * option qerror :=
  let endV := l in
  let endV :=
    match end_ with
    | Some e => if e <? 0 then wrap64 (endV + e) else e
    | None => endV
    end in
  let endV := if endV >? l then l else endV in
  let endV := if endV <? 0 then 0 else endV in
  let startV := start in
  let startV :=
    if startV <? 0 then
      let startV := wrap64 (l + startV) in
      if startV <? 0 then 0 else startV
    else startV in
  let err :=
    if startV >? endV then
      Some (Errorf ("lower slice bound " +:+ pretty startV +:+
                    " must be lower than or equal to upper bound (" +:+ pretty endV +:+
                    ") and target length (" +:+ pretty l +:+ ")"))
    else None in
  (startV, endV, err).

(** The [simpleMethod] returned by [sliceMethod]. *)
Definition slice_apply (start : Z) (end_ : option Z) (v : value) : run (qerror + value) :=
  match v with
  | VString t =>
      let '(lo, hi, err) := getBounds start end_ (Z.of_nat (String.length t)) in
      match err with
      | Some e => Done (inl e)
      | None => match slice_string t lo hi with
                | Done r => Done (inr (VString r))
                | _ => Panicked
                end
      end
  | VBytes t =>
      let '(lo, hi, err) := getBounds start end_ (Z.of_nat (length t)) in
      match err with
      | Some e => Done (inl e)
      | None => match slice_list t lo hi with
                | Done r => Done (inr (VBytes r))
                | _ => Panicked
                end
      end
  | VArray t =>
      let '(lo, hi, err) := getBounds start end_ (Z.of_nat (length t)) in
      match err with
      | Some e => Done (inl e)
      | None => match slice_list t lo hi with
                | Done r => Done (inr (VArray r))
                | _ => Panicked
                end
      end
  | _ => Done (inl (NewTypeError v [ValueArray; ValueString]))
  end.

(** [sliceMethod]: [args[0]] is [start]; [args[1]], when given, is the
    upper bound.  Both are [int64] (checked by the parameter spec). *)
Definition sliceMethod (start : Z) (end_ : option Z)
    : qerror + (value -> run (qerror + value)) :=
  match end_ with
  | Some endV =>
      if (endV >? 0) && (start >=? endV)
      then inl (Errorf ("lower slice bound " +:+ pretty start +:+
                        " must be lower than upper (" +:+ pretty endV +:+ ")"))
      else inr (slice_apply start end_)
  | None => inr (slice_apply start end_)
  end.

(** [slice(x, i[, j])] from construction to result. *)
Definition slice (x : value) (i : Z) (j : option Z) : run (qerror + value) :=
  match sliceMethod i j with
  | inl e => Done (inl e)
  | inr m => m x
  end.

(** Length of a string, byte slice or array. *)
Definition seq_len (v : value) : option Z :=
  match v with
  | VString t => Some (Z.of_nat (String.length t))
  | VBytes t => Some (Z.of_nat (length t))
  | VArray t => Some (Z.of_nat (length t))
  | _ => None
  end.

(** The bounds as [getBounds] resolves them. *)
Definition resolved_high (l : Z) (j : option Z) : Z :=
  Z.max 0 (Z.min l (match j with
                    | Some e => if e <? 0 then l + e else e
                    | None => l
                    end)).

Definition resolved_low (l i : Z) : Z :=
  if i <? 0 then Z.max 0 (l + i) else i.

(** The length the specification states:
    [max(0, min(j,|x|) - max(i + |x|*[i<0], 0))], [j] defaulting to [|x|]. *)
Definition stated_length (l i : Z) (j : option Z) : Z :=
  Z.max 0 (Z.min (match j with Some e => e | None => l end) l
           - Z.max (i + (if i <? 0 then l else 0)) 0).

Example slice_doc_examples :
  slice (VString "foo bar") 0 (Some 2) = Done (inr (VString "fo")) /\
  slice (VString "foo bar") 4 None = Done (inr (VString "bar")) /\
  slice (VString "foo bar") (-4) None = Done (inr (VString " bar")) /\
  slice (VString "foo bar") 0 (Some (-4)) = Done (inr (VString "foo")).
Proof. repeat split; reflexivity. Qed.

Lemma getBounds_resolved (start : Z) (end_ : option Z) (l : Z) :
  in_int64 start -> (forall e, end_ = Some e -> in_int64 e) -> 0 <= l < 2 ^ 63 ->
  exists err,
    getBounds start end_ l = (resolved_low l start, resolved_high l end_, err) /\
    (err = None <-> resolved_low l start <= resolved_high l end_) /\
    0 <= resolved_low l start /\ 0 <= resolved_high l end_ <= l.
Proof.
  intros Hs He Hl. unfold getBounds, resolved_low, resolved_high, in_int64 in *.
  set (hi0 := match end_ with
              | Some e => if e <? 0 then wrap64 (l + e) else e
              | None => l
              end).
  assert (Ehi : hi0 = match end_ with
                      | Some e => if e <? 0 then l + e else e
                      | None => l
                      end).
  { subst hi0. destruct end_ as [e|]; [|reflexivity].
    specialize (He e eq_refl). destruct (Z.ltb_spec e 0); [|reflexivity].
    apply wrap64_small. unfold in_int64. lia. }
  rewrite Ehi. clear Ehi hi0.
  set (j' := match end_ with Some e => if e <? 0 then l + e else e | None => l end).
  assert (Elo : (if start <? 0
                 then let s := wrap64 (l + start) in if s <? 0 then 0 else s
                 else start) = if start <? 0 then Z.max 0 (l + start) else start).
  { destruct (Z.ltb_spec start 0); [|reflexivity]. cbv zeta.
    rewrite wrap64_small by (unfold in_int64; lia).
    destruct (Z.ltb_spec (l + start) 0); lia. }
  cbv zeta in Elo |- *. rewrite Elo. clear Elo.
  assert (Eh : (if (if j' >? l then l else j') <? 0 then 0
                else if j' >? l then l else j') = Z.max 0 (Z.min l j')).
  { rewrite Z.gtb_ltb. destruct (Z.ltb_spec l j').
    - destruct (Z.ltb_spec l 0); lia.
    - destruct (Z.ltb_spec j' 0); lia. }
  rewrite Eh. clear Eh.
  set (lo := if start <? 0 then Z.max 0 (l + start) else start).
  set (hi := Z.max 0 (Z.min l j')).
  eexists. split; [reflexivity|].
  assert (Hlo : 0 <= lo) by (subst lo; destruct (Z.ltb_spec start 0); lia).
  split; [|lia]. rewrite Z.gtb_ltb.
  destruct (Z.ltb_spec hi lo); split; intros; try lia; try discriminate; reflexivity.
Qed.

Lemma length_substring (s : string) : forall n m : nat,
  (n + m <= String.length s)%nat -> String.length (substring n m s) = m.
Proof.
  induction s as [|c s IH]; intros n m H; simpl in *.
  - destruct n, m; simpl in *; try lia; reflexivity.
  - destruct n as [|n].
    + destruct m as [|m]; [reflexivity|]. simpl. f_equal. apply IH. lia.
    + apply IH. lia.
Qed.

(** The part of a sequence between two resolved bounds. *)
Definition sub_seq (x : value) (lo hi : Z) : value :=
  match x with
  | VString t => VString (substring (Z.to_nat lo) (Z.to_nat (hi - lo)) t)
  | VBytes t => VBytes (take (Z.to_nat (hi - lo)) (drop (Z.to_nat lo) t))
  | VArray t => VArray (take (Z.to_nat (hi - lo)) (drop (Z.to_nat lo) t))
  | _ => x
  end.

Lemma sub_seq_len (x : value) (l lo hi : Z) :
  seq_len x = Some l -> 0 <= lo <= hi -> hi <= l ->
  seq_len (sub_seq x lo hi) = Some (hi - lo).
Proof.
  intros Hx Hlo Hhi.
  destruct x; simpl in *; try discriminate; inversion Hx; subst; f_equal.
  - rewrite length_substring; lia.
  - rewrite length_take, length_drop. lia.
  - rewrite length_take, length_drop. lia.
Qed.

Lemma slice_apply_resolved (x : value) (l i : Z) (j : option Z) :
  seq_len x = Some l ->
  in_int64 i -> (forall e, j = Some e -> in_int64 e) -> l < 2 ^ 63 ->
  (resolved_low l i <= resolved_high l j ->
   slice_apply i j x = Done (inr (sub_seq x (resolved_low l i) (resolved_high l j)))) /\
  (resolved_high l j < resolved_low l i ->
   exists e, slice_apply i j x = Done (inl e)).
Proof.
  intros Hx Hi Hj Hl.
  assert (Hl0 : 0 <= l < 2 ^ 63).
  { destruct x; simpl in Hx; try discriminate; inversion Hx; lia. }
  destruct (getBounds_resolved i j l Hi Hj Hl0) as (err & EB & Herr & Hlo & Hhi).
  assert (Hok : resolved_low l i <= resolved_high l j ->
                sliceable (resolved_low l i) (resolved_high l j) l = true).
  { intros H. unfold sliceable. rewrite !andb_true_iff, !Z.leb_le. lia. }
  split.
  - intros Hle. assert (err = None) as -> by now apply Herr.
    destruct x; simpl in Hx; try discriminate; inversion Hx; subst l;
      unfold slice_apply, sub_seq; rewrite EB;
      unfold slice_string, slice_list; now rewrite (Hok Hle).
  - intros Hlt. destruct err as [e|]; [|assert (resolved_low l i <= resolved_high l j) by (now apply Herr); lia].
    exists e. destruct x; simpl in Hx; try discriminate; inversion Hx; subst l;
      unfold slice_apply; now rewrite EB.
Qed.

(** C5 (as amended).  For a string, byte slice or array [x] of length [l]
    and [int64] bounds: construction fails when an upper bound [j > 0] is
    given with [i >= j]; otherwise, with [hi] the upper bound resolved as
    [j] (or [l + j] for a negative [j], [l] when omitted) clamped to
    [0..l], and [lo] the lower bound resolved as [i] (or [max(l + i, 0)]
    for a negative [i]), the slice succeeds whenever [lo <= hi] and is the
    part of [x] from [lo] to [hi], of length [hi - lo]. *)
Theorem slice_length (x : value) (l i : Z) (j : option Z) :
  seq_len x = Some l ->
  in_int64 i -> (forall e, j = Some e -> in_int64 e) -> l < 2 ^ 63 ->
  (forall e, j = Some e -> 0 < e -> e <= i ->
     exists err, slice x i j = Done (inl err)) /\
  ((forall e, j = Some e -> 0 < e -> i < e) ->
   resolved_low l i <= resolved_high l j ->
   slice x i j = Done (inr (sub_seq x (resolved_low l i) (resolved_high l j))) /\
   seq_len (sub_seq x (resolved_low l i) (resolved_high l j)) =
     Some (resolved_high l j - resolved_low l i)).
Proof.
  intros Hx Hi Hj Hl. split.
  - intros e -> He Hie. unfold slice, sliceMethod.
    assert ((e >? 0) && (i >=? e) = true) as ->; [|eauto].
    rewrite andb_true_iff, Z.gtb_ltb, Z.ltb_lt, Z.geb_le. lia.
  - intros Hguard Hle.
    assert (Hl0 : 0 <= l).
    { destruct x; simpl in Hx; try discriminate; inversion Hx; lia. }
    assert (Hlo : 0 <= resolved_low l i).
    { unfold resolved_low. destruct (Z.ltb_spec i 0); lia. }
    assert (Hhi : resolved_high l j <= l) by (unfold resolved_high; lia).
    split; [|now apply (sub_seq_len x l)].
    destruct (slice_apply_resolved x l i j Hx Hi Hj Hl) as [Hok _].
    unfold slice, sliceMethod. destruct j as [e|]; [|now apply Hok].
    destruct (Z.ltb_spec 0 e) as [He|He].
    + assert ((e >? 0) && (i >=? e) = false) as ->; [|now apply Hok].
      rewrite andb_false_iff, Z.geb_leb, Z.leb_gt. right. now apply Hguard.
    + assert ((e >? 0) = false) as ->; [|now apply Hok].
      rewrite Z.gtb_ltb. now apply Z.ltb_ge.
Qed.

Lemma slice_length_witness :
  (slice (VString "foo bar") 0 (Some (-4)) = Done (inr (VString "foo")) /\
   seq_len (VString "foo") = Some 3) /\
  exists err, slice (VString "abc") 2 (Some 2) = Done (inl err).
Proof.
  assert (Hi : forall z, (z =? 0) || (z =? 2) || (z =? -4) = true -> in_int64 z).
  { intros z H. unfold in_int64. lia. }
  split.
  - destruct (slice_length (VString "foo bar") 7 0 (Some (-4)) eq_refl
                (Hi 0 eq_refl) (fun e E => Hi e (f_equal (fun o => match o with
                   | Some z => (z =? 0) || (z =? 2) || (z =? -4) | None => true end) (eq_sym E)))
                eq_refl) as [_ H].
    apply H.
    + intros e [= <-]. lia.
    + vm_compute. discriminate.
  - destruct (slice_length (VString "abc") 3 2 (Some 2) eq_refl
                (Hi 2 eq_refl) (fun e E => Hi e (f_equal (fun o => match o with
                   | Some z => (z =? 0) || (z =? 2) || (z =? -4) | None => true end) (eq_sym E)))
                eq_refl) as [H _].
    apply (H 2); [reflexivity | lia | lia].
Defined.

(** C5 as stated fails on the code: a negative upper bound counts from the
    end (the documented [slice(0, -4)] of ["foo bar"] is ["foo"], where the
    stated length is 0), and with an upper bound [j > 0], [i >= j] is an
    error at construction, not an empty result. *)
Lemma slice_stated_length_fails :
  slice (VString "foo bar") 0 (Some (-4)) = Done (inr (VString "foo")) /\
  stated_length 7 0 (Some (-4)) = 0 /\
  stated_length 3 2 (Some 2) = 0 /\
  slice (VString "abc") 2 (Some 2) =
    Done (inl (Errorf "lower slice bound 2 must be lower than upper (2)")).
Proof. repeat split; reflexivity. Qed.

(** What the code does when the resolved lower bound is past the upper. *)
Lemma slice_low_past_high (x : value) (l i : Z) (j : option Z) :
  seq_len x = Some l ->
  in_int64 i -> (forall e, j = Some e -> in_int64 e) -> l < 2 ^ 63 ->
  resolved_high l j < resolved_low l i ->
  exists e, slice x i j = Done (inl e).
Proof.
  intros Hx Hi Hj Hl Hlt. unfold slice, sliceMethod.
  destruct (slice_apply_resolved x l i j Hx Hi Hj Hl) as [_ Herr].
  destruct j as [e|]; [|now apply Herr].
  destruct (_ && _); [eauto | now apply Herr].
Qed.

Example slice_past_length :
  slice (VString "abc") 4 None =
  Done (inl (Errorf "lower slice bound 4 must be lower than or equal to upper bound (3) and target length (3)")).
Proof. reflexivity. Qed.

(** *** Functions and methods

    A [Function] is what the evaluator runs: [Exec] against a context and
    an [Annotation] for diagnostics ([QueryTargets] plays no role below).
    The evaluation context, the parsed parameters of a call and the
    numeric coercion [IGetNumber] of [type_helpers.go] are not part of the
    sources at hand: they are parameters. *)
Section Functions.
Variable FunctionContext : Type.
Variable ParsedParams : Type.
Variable IGetNumber : value -> qerror + float.

Record Function : Type := ClosureFunction {
  Annotation : string;
  Exec : FunctionContext -> qerror + value;
}.

Definition NewLiteralFunction (annotation : string) (v : value) : Function :=
  ClosureFunction annotation (fun _ => inr v).

(** Modelled from the spec: [ISanitize] ([type_helpers.go], not among the
    sources) normalises the numeric kind of a value: the signed integer
    types become [int64], the unsigned ones [uint64], [float32] becomes
    [float64].  [sumMethod] switches on [json.Number] as a result of
    [ISanitize], so a deferred-parse number passes unchanged, as does every
    other value. *)
Definition ISanitize (v : value) : value :=
  match v with
  | VInt (KInt | KInt8 | KInt16 | KInt32 | KInt64) z => VInt KInt64 z
  | VInt (KUint | KUint8 | KUint16 | KUint32 | KUint64) z => VInt KUint64 z
  | VFloat32 f => VFloat64 f
  | _ => v
  end.

(** *** [sum] *)

(** The [for i, v := range t] loop of [sumMethod]: a failing element sets
    [err] (the last one wins), the others add to [total]. *)
Fixpoint sum_loop (t : list value) (i : Z) (total : float) (err : option qerror)
    : float * option qerror :=
  match t with
  | [] => (total, err)
  | v :: rest =>
      match IGetNumber v with
      | inl nErr =>
          sum_loop rest (i + 1) total (Some (ErrorfW ("index " +:+ pretty i +:+ ": ") nErr))
      | inr n => sum_loop rest (i + 1) (total + n)%float err
      end
  end.

Definition sumMethod (target : Function) : Function :=
  ClosureFunction "method sum" (fun ctx =>
    match Exec target ctx with
    | inl err => inl err
    | inr v =>
        match ISanitize v with
        | VFloat64 _ | VInt KInt64 _ | VInt KUint64 _ | VNumber _ => inr v
        | VArray t =>
            let '(total, err) := sum_loop t 0 0%float None in
            match err with
            | Some e => inl e
            | None => inr (VFloat64 total)
            end
        | _ => inl (NewTypeErrorFrom (Annotation target) v [ValueArray])
        end
    end).

(** A single numeric value: a signed or unsigned integer, a float or a
    deferred-parse number. *)
Definition is_number (v : value) : bool :=
  match v with
  | VInt _ _ | VFloat32 _ | VFloat64 _ | VNumber _ => true
  | _ => false
  end.

Definition is_array (v : value) : bool :=
  match v with VArray _ => true | _ => false end.

Lemma sum_loop_err_shape t : forall i total err total' e,
  sum_loop t i total err = (total', Some e) ->
  err = Some e \/ exists msg inner, e = ErrorfW msg inner.
Proof.
  induction t as [|v rest IH]; simpl; intros i total err total' e E.
  - inversion E; subst. now left.
  - destruct (IGetNumber v) as [nErr|n].
    + destruct (IH _ _ _ _ _ E) as [[= <-]|H]; [right; eauto | now right].
    + eapply IH; eauto.
Qed.

(** C9.  [sum()] on a target that evaluates to a single numeric value
    returns that value unchanged; the type error naming [array] as the
    expected kind is returned exactly for targets that are neither numeric
    nor arrays. *)
Theorem sum_of_number (target : Function) (ctx : FunctionContext) (v : value) :
  Exec target ctx = inr v ->
  (is_number v = true -> Exec (sumMethod target) ctx = inr v) /\
  (Exec (sumMethod target) ctx =
     inl (NewTypeErrorFrom (Annotation target) v [ValueArray]) <->
   is_number v = false /\ is_array v = false).
Proof.
  intros E. simpl. rewrite E. split.
  - destruct v as [| |[] z| | | | | | |]; simpl; try discriminate; reflexivity.
  - split.
    + destruct v as [| |[] z| | | | | |t|]; simpl; try discriminate; auto.
      destruct (sum_loop t 0 0%float None) as [total [e|]] eqn:EL; [|discriminate].
      intros [= ->].
      destruct (sum_loop_err_shape _ _ _ _ _ _ EL) as [H|(msg & inner & H)];
        discriminate.
    + intros [Hn Ha].
      destruct v as [| |[] z| | | | | |t|]; simpl in *; try discriminate; reflexivity.
Qed.

(** *** [FunctionSet] *)

Variable Params : Type.
Variable validate : Params -> option qerror.
Variable dynamic : ParsedParams -> list Function.
Variable ResolveDynamic : ParsedParams -> FunctionContext -> qerror + ParsedParams.

Record FunctionSpec : Type := mkSpec {
  spec_Name : string;
  spec_Category : string;
  spec_Impure : bool;
  spec_Params : Params;
}.

Definition FunctionCtor : Type := ParsedParams -> qerror + Function.

(** The struct: two Go maps.  A [*FunctionSet] is a location of the heap;
    [Add] writes through it, [Without] allocates. *)
Record FunctionSet : Type := mkSet {
  constructors : gmap string FunctionCtor;
  specs : gmap string FunctionSpec;
}.

Local Abbreviation heap := (gmap positive FunctionSet).

Definition alloc (S : FunctionSet) (h : heap) : positive * heap :=
  let l := fresh (dom h) in (l, <[l := S]> h).

Definition NewFunctionSet (h : heap) : positive * heap := alloc (mkSet ∅ ∅) h.

(** [nameRegexp], [^[a-z0-9]+(_[a-z0-9]+)*$]: [in_segment] tells whether
    the segment being read has a character already. *)
Definition is_lower_alnum (c : ascii) : bool :=
  let n := nat_of_ascii c in
  ((97 <=? n) && (n <=? 122))%nat || ((48 <=? n) && (n <=? 57))%nat.

Fixpoint name_match (s : string) (in_segment : bool) : bool :=
  match s with
  | EmptyString => in_segment
  | String c rest =>
      if is_lower_alnum c then name_match rest true
      else if Ascii.eqb c "_" then in_segment && name_match rest false
      else false
  end.

Definition nameRegexp_MatchString (s : string) : bool := name_match s false.

Definition nameRegexpRaw : string := "^[a-z0-9]+(_[a-z0-9]+)*$".

(** Modelled from the spec: [badFunctionErr] is declared outside the
    sources; the message is [unrecognised function 'X']. *)
Definition badFunctionErr (name : string) : qerror :=
  Errorf ("unrecognised function '" +:+ name +:+ "'").

(** [FunctionSet.Add]; [None] stands for a call through a dangling pointer. *)
Definition Add (f : positive) (spec : FunctionSpec) (ctor : FunctionCtor) (h : heap)
    : option (option qerror * heap) :=
  S ← h !! f;
  if negb (nameRegexp_MatchString (spec_Name spec)) then
    Some (Some (Errorf ("function name '" +:+ spec_Name spec +:+
                        "' does not match the required regular expression /" +:+
                        nameRegexpRaw +:+ "/")), h)
  else if decide (is_Some (constructors S !! spec_Name spec)) then
    Some (Some (Errorf ("conflicting function name: " +:+ spec_Name spec)), h)
  else
    match validate (spec_Params spec) with
    | Some err => Some (Some err, h)
    | None =>
        Some (None,
              <[f := mkSet (<[spec_Name spec := ctor]> (constructors S))
                           (<[spec_Name spec := spec]> (specs S))]> h)
    end.

Definition wrapCtorWithDynamicArgs (name : string) (args : ParsedParams)
    (fn : FunctionCtor) : qerror + Function :=
  let fns := dynamic args in
  if Z.of_nat (length fns) =? 0 then fn args
  else
    inr (ClosureFunction ("function " +:+ name) (fun ctx =>
      match ResolveDynamic args ctx with
      | inl err => inl err
      | inr newArgs =>
          match fn newArgs with
          | inl err => inl err
          | inr dynFunc => Exec dynFunc ctx
          end
      end)).

(** [FunctionSet.Init] *)
Definition Init (f : positive) (name : string) (args : ParsedParams) (h : heap)
    : option (qerror + Function) :=
  S ← h !! f;
  match constructors S !! name with
  | None => Some (inl (badFunctionErr name))
  | Some ctor => Some (wrapCtorWithDynamicArgs name args ctor)
  end.

(** The two loops of [Without]: the constructors are copied under their
    key, the specs under their own [Name]. *)
Definition copy_constructors (excludeMap : gset string)
    (m : gmap string FunctionCtor) : gmap string FunctionCtor :=
  map_fold (fun k v acc => if decide (k ∈ excludeMap) then acc else <[k := v]> acc) ∅ m.

Definition copy_specs (excludeMap : gset string)
    (m : gmap string FunctionSpec) : gmap string FunctionSpec :=
  map_fold (fun _ v acc =>
              if decide (spec_Name v ∈ excludeMap) then acc
              else <[spec_Name v := v]> acc) ∅ m.

(** [FunctionSet.Without] *)
Definition Without (f : positive) (functions : list string) (h : heap)
    : option (positive * heap) :=
  S ← h !! f;
  let excludeMap : gset string := list_to_set functions in
  Some (alloc (mkSet (copy_constructors excludeMap (constructors S))
                     (copy_specs excludeMap (specs S))) h).

(** Every spec is stored under its name: what [Add] establishes. *)
Definition keyed (S : FunctionSet) : Prop :=
  forall k v, specs S !! k = Some v -> spec_Name v = k.


Lemma copy_specs_lookup (excl : gset string) (m : gmap string FunctionSpec) :
  (forall k v, m !! k = Some v -> spec_Name v = k) ->
  forall k, copy_specs excl m !! k = if decide (k ∈ excl) then None else m !! k.
Proof.
  unfold copy_specs.
  apply (map_fold_weak_ind
           (fun r (m : gmap string FunctionSpec) =>
              (forall k v, m !! k = Some v -> spec_Name v = k) ->
              forall k, r !! k = if decide (k ∈ excl) then None else m !! k)).
  - intros _ k. rewrite !lookup_empty. by destruct (decide _).
  - intros i x m' r Hi IH Hkey k.
    assert (Hx : spec_Name x = i) by (apply Hkey; by rewrite lookup_insert_eq).
    assert (Hkey' : forall k v, m' !! k = Some v -> spec_Name v = k).
    { intros k' v Hv. apply Hkey. rewrite lookup_insert_ne; [done|].
      intros ->. congruence. }
    specialize (IH Hkey'). rewrite Hx.
    destruct (decide (i ∈ excl)) as [Hin|Hout].
    + rewrite IH. destruct (decide (k ∈ excl)); [done|].
      rewrite lookup_insert_ne; [done|]. by intros ->.
    + destruct (decide (k = i)) as [->|Hne].
      * rewrite !lookup_insert_eq. by destruct (decide _).
      * rewrite !lookup_insert_ne by done. apply IH.
Qed.


(** The invariant is established by [NewFunctionSet] and kept by [Add] and
    [Without]. *)
Definition all_keyed (h : heap) : Prop :=
  forall f S, h !! f = Some S -> keyed S.

Lemma NewFunctionSet_keyed (h : heap) :
  all_keyed h -> all_keyed (NewFunctionSet h).2.
Proof.
  intros Hh f S. unfold NewFunctionSet, alloc. simpl.
  destruct (decide (f = fresh (dom h))) as [->|Hne].
  - rewrite lookup_insert_eq. intros [= <-] k v. simpl. by rewrite lookup_empty.
  - rewrite lookup_insert_ne by done. apply Hh.
Qed.

Lemma Add_keyed f spec ctor (h : heap) r h' :
  all_keyed h -> Add f spec ctor h = Some (r, h') -> all_keyed h'.
Proof.
  intros Hh. unfold Add. destruct (h !! f) as [S|] eqn:Ef; simpl; [|done].
  destruct (negb _); [by intros [= <- <-]|].
  destruct (decide _); [by intros [= <- <-]|].
  destruct (validate _); [by intros [= <- <-]|].
  intros [= <- <-] g T. destruct (decide (g = f)) as [->|Hne].
  - rewrite lookup_insert_eq. intros [= <-] k v. simpl.
    destruct (decide (k = spec_Name spec)) as [->|Hk].
    + rewrite lookup_insert_eq. by intros [= <-].
    + rewrite lookup_insert_ne by done. by apply (Hh f S).
  - rewrite lookup_insert_ne by done. apply Hh.
Qed.

Lemma Without_keyed f names (h : heap) g h' :
  all_keyed h -> Without f names h = Some (g, h') -> all_keyed h'.
Proof.
  intros Hh. unfold Without. destruct (h !! f) as [S|] eqn:Ef; simpl; [|done].
  unfold alloc. intros [= <- <-] l T.
  destruct (decide (l = fresh (dom h))) as [->|Hne].
  - rewrite lookup_insert_eq. intros [= <-] k v. simpl.
    rewrite (copy_specs_lookup _ _ (Hh f S Ef)).
    destruct (decide _); [done|]. by apply (Hh f S).
  - rewrite lookup_insert_ne by done. apply Hh.
Qed.


End Functions.

Arguments ClosureFunction {FunctionContext} Annotation Exec.
Arguments Annotation {FunctionContext} f.
Arguments Exec {FunctionContext} f ctx.

(** *** Arithmetic

    [arithmetic.go] is not among the sources: the operators are modelled
    from section 4.1 of the specification and from the cases of
    [arithmetic_test.go]. *)

(** [float64(z)]: the binary64 nearest to an integer. *)
Definition float_of_Z (z : Z) : float := SF2Prim (binary_normalize prec emax z 0 false).

Definition digit_of (c : ascii) : option Z :=
  let n := nat_of_ascii c in
  if ((48 <=? n) && (n <=? 57))%nat then Some (Z.of_nat n - 48) else None.

(** The value of a run of decimal digits, most significant first. *)
Fixpoint digits_value (s : string) (acc : Z) : option Z :=
  match s with
  | EmptyString => Some acc
  | String c rest =>
      match digit_of c with
      | Some d => digits_value rest (10 * acc + d)
      | None => None
      end
  end.

Definition unsigned_digits (s : string) : option Z :=
  match s with
  | EmptyString => None
  | _ => digits_value s 0
  end.

Definition split_sign (s : string) : bool * string :=
  match s with
  | String "-" rest => (true, rest)
  | String "+" rest => (false, rest)
  | _ => (false, s)
  end.

(** Modelled from the spec: the integer reading of a decimal text, an
    optional sign and digits, within [int64]. *)
Definition parse_int (s : string) : option Z :=
  let '(neg, body) := split_sign s in
  match unsigned_digits body with
  | Some n =>
      let z := if neg then - n else n in
      if (- 2 ^ 63 <=? z) && (z <? 2 ^ 63) then Some z else None
  | None => None
  end.

(** The text before and after the first dot. *)
Fixpoint split_dot (s : string) : string * option string :=
  match s with
  | EmptyString => (EmptyString, None)
  | String c rest =>
      if Ascii.eqb c "." then (EmptyString, Some rest)
      else let '(a, b) := split_dot rest in (String c a, b)
  end.

(** Modelled from the spec: the float reading of a decimal text, an
    optional sign, digits and an optional fraction; no exponent.  The
    quotient is the correctly rounded value as long as the digits make a
    number below [2^53] and the fraction has at most 22 digits. *)
Definition parse_float (s : string) : option float :=
  let '(neg, body) := split_sign s in
  let '(whole, frac) := split_dot body in
  let magnitude :=
    match frac with
    | None => float_of_Z <$> unsigned_digits whole
    | Some fr =>
        w ← unsigned_digits whole;
        f ← unsigned_digits fr;
        let scale := 10 ^ Z.of_nat (String.length fr) in
        Some (float_of_Z (w * scale + f) / float_of_Z scale)%float
    end in
  (fun m => if neg then (- m)%float else m) <$> magnitude.

(** A coerced operand: a 64-bit signed integer or a float. *)
Inductive num : Type :=
  | NInt (z : Z)
  | NFloat (f : float).

Definition to_float (n : num) : float :=
  match n with
  | NInt z => float_of_Z z
  | NFloat f => f
  end.

Definition int_then_float (s : string) : option num :=
  match parse_int s with
  | Some z => Some (NInt z)
  | None => NFloat <$> parse_float s
  end.

(** Modelled from the spec: numeric coercion.  Integers degrade to
    [int64], floats to [float64], a deferred-parse number reads as an
    integer and otherwise as a float, a string goes through the decimal
    parse; booleans, null and the structured kinds are rejected. *)
Definition coerce (v : value) : option num :=
  match v with
  | VInt _ z => Some (NInt (wrap64 z))
  | VFloat32 f | VFloat64 f => Some (NFloat f)
  | VNumber text => int_then_float text
  | VString s => int_then_float s
  | _ => None
  end.

(** Modelled from the spec: the kind of a value, as [type()] names it. *)
Definition kind_name (v : value) : string :=
  match v with
  | VNull => "null"
  | VBool _ => "bool"
  | VInt _ _ | VFloat32 _ | VFloat64 _ | VNumber _ => "number"
  | VString _ => "string"
  | VBytes _ => "bytes"
  | VArray _ => "array"
  | VObject _ => "object"
  end.

Inductive ArithmeticOperator : Type :=
  | ArithmeticAdd | ArithmeticSub | ArithmeticMul | ArithmeticDiv | ArithmeticMod.

Example parse_examples :
  parse_int "12" = Some 12 /\ parse_int "-7" = Some (-7) /\ parse_int "3.0" = None /\
  parse_int "not a number" = None /\ parse_int "9223372036854775808" = None /\
  parse_float "3.2" = Some 0x1.999999999999ap+1%float /\
  parse_float "8.0" = Some 8%float /\ parse_float "-0.5" = Some (-0.5)%float /\
  parse_float "not a number" = None /\ parse_float "" = None.
Proof. repeat split; vm_compute; reflexivity. Qed.

Section Arithmetic.
Variable FunctionContext : Type.
(** [math.Mod], and the verb an operator has in a type-mismatch message
    (the test pins [add] for [ArithmeticAdd]). *)
Variable fmod : float -> float -> float.
Variable verb : ArithmeticOperator -> string.

Local Abbreviation Fn := (Function FunctionContext).

(** Modelled from the spec: the failure of numeric coercion,
    [cannot <op> types <lkind> (from <lannotation>) and <rkind> (from
    <rannotation>)]. *)
Definition NewTypeMismatch (op : ArithmeticOperator) (lFn rFn : Fn)
    (left right : value) : qerror :=
  Errorf ("cannot " +:+ verb op +:+ " types " +:+
          kind_name left +:+ " (from " +:+ Annotation lFn +:+ ") and " +:+
          kind_name right +:+ " (from " +:+ Annotation rFn +:+ ")").

(** Modelled from the spec: [numberDegradationFunc], called by
    [TestArithmeticNumberDegradation] with an operator and the integer and
    float versions of it.  Either operand failing coercion is a type
    mismatch; two integers go to the integer version, anything else to the
    float one. *)
Definition numberDegradationFunc (op : ArithmeticOperator)
    (intFn : Z -> Z -> qerror + Z) (floatFn : float -> float -> qerror + float)
    (lFn rFn : Fn) (left right : value) : qerror + value :=
  match coerce left, coerce right with
  | Some (NInt a), Some (NInt b) =>
      match intFn a b with
      | inl e => inl e
      | inr z => inr (VInt KInt64 z)
      end
  | Some l, Some r =>
      match floatFn (to_float l) (to_float r) with
      | inl e => inl e
      | inr f => inr (VFloat64 f)
      end
  | _, _ => inl (NewTypeMismatch op lFn rFn left right)
  end.

(** Modelled from the spec: the divide-by-zero failure.  The specification
    words its prefix as the annotation of the left operand; the two cases
    of [TestArithmetic] ("dont divide by zero", "dont divide by zero 2")
    expect the annotation of the right operand, the one that evaluated to
    zero, and the model follows the test. *)
Definition divide_by_zero (rFn : Fn) : qerror :=
  Errorf (Annotation rFn +:+ ": attempted to divide by zero").



(** Modelled from the spec: the operators [+ - * / %] on two evaluated
    operands.  [+] concatenates two strings and rejects a string with
    anything else; [/] and [%] reject a zero right operand; two integers
    are computed in [int64], [/] leaving the integers when the quotient is
    not one; a float on either side gives a float. *)
Definition apply_op (op : ArithmeticOperator) (lFn rFn : Fn) (left right : value)
    : qerror + value :=
  match op with
  | ArithmeticAdd =>
      match left, right with
      | VString a, VString b => inr (VString (a +:+ b))
      | VString _, _ | _, VString _ => inl (NewTypeMismatch op lFn rFn left right)
      | _, _ =>
          numberDegradationFunc op
            (fun a b => inr (wrap64 (a + b))) (fun a b => inr (a + b)%float)
            lFn rFn left right
      end
  | ArithmeticSub =>
      numberDegradationFunc op
        (fun a b => inr (wrap64 (a - b))) (fun a b => inr (a - b)%float)
        lFn rFn left right
  | ArithmeticMul =>
      numberDegradationFunc op
        (fun a b => inr (wrap64 (a * b))) (fun a b => inr (a * b)%float)
        lFn rFn left right
  | ArithmeticMod =>
      numberDegradationFunc op
        (fun a b => if b =? 0 then inl (divide_by_zero rFn) else inr (Z.rem a b))
        (fun a b => if PrimFloat.eqb b 0 then inl (divide_by_zero rFn)
                    else inr (fmod a b))
        lFn rFn left right
  | ArithmeticDiv =>
      match coerce left, coerce right with
      | Some (NInt a), Some (NInt b) =>
          if b =? 0 then inl (divide_by_zero rFn)
          else if Z.rem a b =? 0 then inr (VInt KInt64 (wrap64 (Z.quot a b)))
          else inr (VFloat64 (float_of_Z a / float_of_Z b)%float)
      | Some l, Some r =>
          if PrimFloat.eqb (to_float r) 0 then inl (divide_by_zero rFn)
          else inr (VFloat64 (to_float l / to_float r)%float)
      | _, _ => inl (NewTypeMismatch op lFn rFn left right)
      end
  end.

(** [NewArithmeticExpression] on two operands and one of these operators:
    both operands are executed, then the operator is applied. *)
Definition arithmetic_pair (lFn rFn : Fn) (op : ArithmeticOperator) : Fn :=
  ClosureFunction "" (fun ctx =>
    match Exec lFn ctx with
    | inl e => inl e
    | inr l =>
        match Exec rFn ctx with
        | inl e => inl e
        | inr r => apply_op op lFn rFn l r
        end
    end).












End Arithmetic.

(** *** The test cases of the sources, run on the model *)

(** A stand-in for [IGetNumber] in the examples: the numeric kinds as
    floats, a type error naming [number] otherwise. *)
Definition IGetNumber_sample (v : value) : qerror + float :=
  match v with
  | VInt _ z => inr (float_of_Z z)
  | VFloat32 f | VFloat64 f => inr f
  | VNumber text =>
      match parse_float text with
      | Some f => inr f
      | None => inl (NewTypeError v [ValueNumber])
      end
  | _ => inl (NewTypeError v [ValueNumber])
  end.

(** Verbs for the type-mismatch message; only [add] is pinned by the tests. *)
Definition sample_verb (op : ArithmeticOperator) : string :=
  match op with
  | ArithmeticAdd => "add"
  | ArithmeticSub => "subtract"
  | ArithmeticMul => "multiply"
  | ArithmeticDiv => "divide"
  | ArithmeticMod => "modulo"
  end.

Definition no_fmod (a b : float) : float := PrimFloat.nan.

Definition literal (annotation : string) (v : value) : Function unit :=
  NewLiteralFunction unit annotation v.

(** [opaqueLit] of [TestArithmetic]: a closure annotated [foobar]. *)
Definition opaqueLit (v : value) : Function unit :=
  ClosureFunction "foobar" (fun _ => inr v).

(** The documentation example of [sum]: [[3,8,4]] sums to [15]. *)
Example sum_doc_example :
  Exec (sumMethod unit IGetNumber_sample
          (literal "this.foo" (VArray [VFloat64 3; VFloat64 8; VFloat64 4]))) tt =
  inr (VFloat64 15).
Proof. vm_compute. reflexivity. Qed.

Example sum_bad_element :
  Exec (sumMethod unit IGetNumber_sample
          (literal "this.foo" (VArray [VFloat64 3; VString "x"; VBool true]))) tt =
  inl (ErrorfW "index 2: " (NewTypeError (VBool true) [ValueNumber])).
Proof. vm_compute. reflexivity. Qed.

Lemma sum_of_number_witness :
  Exec (sumMethod unit IGetNumber_sample (literal "this.n" (VInt KInt32 7))) tt =
    inr (VInt KInt32 7) /\
  Exec (sumMethod unit IGetNumber_sample (literal "this.s" (VString "x"))) tt =
    inl (NewTypeErrorFrom "this.s" (VString "x") [ValueArray]).
Proof.
  split.
  - apply (proj1 (sum_of_number unit IGetNumber_sample
                    (literal "this.n" (VInt KInt32 7)) tt (VInt KInt32 7) eq_refl)).
    reflexivity.
  - apply (proj2 (sum_of_number unit IGetNumber_sample
                    (literal "this.s" (VString "x")) tt (VString "x") eq_refl)).
    split; reflexivity.
Defined.

(** [TestArithmeticNumberDegradation]: [numberDegradationFunc] given
    [ArithmeticAdd] and the two divisions. *)
Definition degradation_under_test (left right : value) : qerror + value :=
  numberDegradationFunc unit sample_verb ArithmeticAdd
    (fun l r => inr (Z.quot l r)) (fun l r => inr (l / r)%float)
    (literal "left" left) (literal "right" right) left right.

Example TestArithmeticNumberDegradation :
  degradation_under_test (VInt KInt64 12) (VInt KUint32 3) = inr (VInt KInt64 4) /\
  degradation_under_test (VFloat64 8) (VFloat64 0x1.999999999999ap+1) = inr (VFloat64 2.5) /\
  degradation_under_test (VFloat64 12) (VInt KUint32 3) = inr (VFloat64 4) /\
  degradation_under_test (VInt KInt32 12) (VFloat64 3) = inr (VFloat64 4) /\
  degradation_under_test (VNumber "12") (VNumber "3") = inr (VInt KInt64 4) /\
  degradation_under_test (VNumber "8.0") (VNumber "3.2") = inr (VFloat64 2.5) /\
  degradation_under_test (VNumber "12") (VNumber "3.0") = inr (VFloat64 4) /\
  degradation_under_test (VNumber "12.0") (VNumber "3") = inr (VFloat64 4) /\
  degradation_under_test (VString "not a number") (VInt KInt 3) =
    inl (Errorf "cannot add types string (from left) and number (from right)") /\
  degradation_under_test (VInt KInt 3) (VString "not a number") =
    inl (Errorf "cannot add types number (from left) and string (from right)") /\
  degradation_under_test (VString "not a number") (VFloat64 3) =
    inl (Errorf "cannot add types string (from left) and number (from right)") /\
  degradation_under_test (VFloat64 3) (VString "not a number") =
    inl (Errorf "cannot add types number (from left) and string (from right)").
Proof. repeat split; vm_compute; reflexivity. Qed.

Definition arithmetic (lFn rFn : Function unit) (op : ArithmeticOperator) : qerror + value :=
  Exec (arithmetic_pair unit no_fmod sample_verb lFn rFn op) tt.

(** [TestArithmetic]: "dont divide by zero", "dont divide by zero 2",
    "add strings" (its first two operands) and "mod two ints". *)
Example TestArithmetic :
  arithmetic (literal "" (VInt KInt64 5)) (opaqueLit (VInt KInt64 0)) ArithmeticDiv =
    inl (Errorf "foobar: attempted to divide by zero") /\
  arithmetic (literal "left thing" (VInt KInt64 5)) (opaqueLit (VInt KInt64 0)) ArithmeticMod =
    inl (Errorf "foobar: attempted to divide by zero") /\
  arithmetic (literal "" (VString "foo")) (literal "" (VString "bar")) ArithmeticAdd =
    inr (VString "foobar") /\
  arithmetic (literal "" (VInt KInt64 5)) (literal "" (VInt KInt64 2)) ArithmeticMod =
    inr (VInt KInt64 1).
Proof. repeat split; vm_compute; reflexivity. Qed.

(** The scenarios of the specification: [int64 12 + uint32 3],
    [12.0 + 3] and ["x" + 3]. *)
Example degradation_scenarios :
  arithmetic (literal "left" (VInt KInt64 12)) (literal "right" (VInt KUint32 3)) ArithmeticAdd =
    inr (VInt KInt64 15) /\
  arithmetic (literal "left" (VFloat64 12)) (literal "right" (VInt KInt 3)) ArithmeticAdd =
    inr (VFloat64 15) /\
  arithmetic (literal "left" (VString "x")) (literal "right" (VInt KInt 3)) ArithmeticAdd =
    inl (Errorf "cannot add types string (from left) and number (from right)").
Proof. repeat split; vm_compute; reflexivity. Qed.




(** [TestMethodBadName]: the names [Add] accepts. *)
Example TestMethodBadName :
  map nameRegexp_MatchString
    ["!no"; "foo__bar"; "-foo-bar"; "foo-bar-"; ""; "foo-bar"; "foo-bar_baz"; "FOO";
     "foobarbaz"; "foobarbaz89"; "foo_bar_baz"; "fo1_ba2_ba3"] =
    [false; false; false; false; false; false; false; false; true; true; true; true].
Proof. vm_compute. reflexivity. Qed.

(** A registry with [explode] and [map_each], built with [NewFunctionSet]
    and [Add]. *)
Definition demo_ctor : FunctionCtor unit unit := fun _ => inr (literal "" VNull).
Definition demo_spec (name : string) : FunctionSpec unit := mkSpec unit name "" false tt.
Definition demo_validate (_ : unit) : option qerror := None.
Definition demo_dynamic (_ : unit) : list (Function unit) := [].
Definition demo_resolve (args : unit) (_ : unit) : qerror + unit := inr args.

Definition demo_set : FunctionSet unit unit unit :=
  mkSet unit unit unit
    (<["map_each" := demo_ctor]> (<["explode" := demo_ctor]> ∅))
    (<["map_each" := demo_spec "map_each"]> (<["explode" := demo_spec "explode"]> ∅)).

Definition demo_heap : gmap positive (FunctionSet unit unit unit) := {[ 1%positive := demo_set ]}.

Example demo_heap_built :
  let '(f, h1) := NewFunctionSet unit unit unit ∅ in
  f = 1%positive /\
  exists h2,
    Add unit unit unit demo_validate f (demo_spec "explode") demo_ctor h1 = Some (None, h2) /\
    Add unit unit unit demo_validate f (demo_spec "map_each") demo_ctor h2 =
      Some (None, demo_heap) /\
    Add unit unit unit demo_validate f (demo_spec "explode") demo_ctor demo_heap =
      Some (Some (Errorf "conflicting function name: explode"), demo_heap).
Proof.
  vm_compute. split; [reflexivity|]. eexists. repeat split.
Qed.


(** [TestMethodSetWithout], on the function set. *)
Example TestFunctionSetWithout :
  exists h',
    Without unit unit unit 1 ["explode"] demo_heap = Some (2%positive, h') /\
    Init unit unit unit demo_dynamic demo_resolve 1 "explode" tt h' =
      Some (inr (literal "" VNull)) /\
    Init unit unit unit demo_dynamic demo_resolve 2 "explode" tt h' =
      Some (inl (Errorf "unrecognised function 'explode'")) /\
    Init unit unit unit demo_dynamic demo_resolve 2 "map_each" tt h' =
      Some (inr (literal "" VNull)).
Proof. eexists. repeat split; vm_compute; reflexivity. Qed.


End Query.

(** ** internal/codec/reader.go: codec strings *)

Module CodecString.
Import Codec.

(** [strings.Split(s, "/")]: the pieces between separators, one more than
    there are separators. *)
Fixpoint Split (sep : ascii) (s : string) : list string :=
  match s with
  | EmptyString => [EmptyString]
  | String c rest =>
      if Ascii.eqb c sep then EmptyString :: Split sep rest
      else match Split sep rest with
           | piece :: pieces => String c piece :: pieces
           | [] => [String c EmptyString]
           end
  end.

(** [strings.HasPrefix] and [strings.TrimPrefix]. *)
Definition HasPrefix (s pre : string) : bool := String.prefix pre s.

Definition TrimPrefix (s pre : string) : string :=
  if HasPrefix s pre
  then substring (String.length pre) (String.length s - String.length pre) s
  else s.

(** [strconv.ParseUint(s, 10, 64)]: digits only; the error is a syntax
    error or a range error. *)
Inductive NumError : Type := ErrSyntax | ErrRange.

Definition ParseUint (s : string) : NumError + Z :=
  match s with
  | EmptyString => inl ErrSyntax
  | _ =>
      match Query.digits_value s 0 with
      | None => inl ErrSyntax
      | Some n => if n <? 2 ^ 64 then inr n else inl ErrRange
      end
  end.

(** The constructors the parser assembles, as terms: what [ioReader],
    [partReader] and [readerReader] return and what the three [chain...]
    functions build from them. *)
Inductive io_ctor : Type :=
  | Gzip
  | chainIOCtors (first second : io_ctor).

Inductive leaf_codec : Type :=
  | AllBytes | Lines | Csv | Tar
  | Delim (by_ : string)
  | Chunker (chunkSize : Z).

Inductive wrapper : Type := Multipart.

Inductive part_ctor : Type :=
  | Leaf (c : leaf_codec)
  | chainIOIntoPartCtor (first : io_ctor) (second : part_ctor)
  | chainPartIntoReaderCtor (first : part_ctor) (second : wrapper).

(** The errors of construction, with the text of each in [error_text]. *)
Inductive build_error : Type :=
  | CannotFollow (prev codec : string)
  | NotRecognised (codec : string)
  | NoneRecognised (codecs : list string)
  | NotPreceded (codec : string)
  | EmptyDelimiter
  | InvalidChunkSize (input : string) (e : NumError)
  | FailedToInfer (e : build_error).

Definition dquote : ascii := ascii_of_nat 34.

Fixpoint join_with (sep : string) (l : list string) : string :=
  match l with
  | [] => ""
  | [s] => s
  | s :: rest => s +:+ sep +:+ join_with sep rest
  end.

Fixpoint error_text (e : build_error) : string :=
  match e with
  | CannotFollow prev codec =>
      "unable to follow codec '" +:+ prev +:+ "' with '" +:+ codec +:+ "'"
  | NotRecognised codec => "codec was not recognised: " +:+ codec
  | NoneRecognised codecs =>
      "codec was not recognised: [" +:+ join_with " " codecs +:+ "]"
  | NotPreceded codec =>
      "unable to codec '" +:+ codec +:+ "' must be preceded by a structured codec"
  | EmptyDelimiter => "custom delimiter codec requires a non-empty delimiter"
  | InvalidChunkSize input e =>
      "invalid chunk size for chunker codec: strconv.ParseUint: parsing " +:+
      String dquote input +:+ String dquote
        (match e with ErrSyntax => ": invalid syntax" | ErrRange => ": value out of range" end)
  | FailedToInfer e => "failed to infer codec: " +:+ error_text e
  end.

Definition ioReader (codec : string) : option io_ctor :=
  if String.eqb codec "gzip" then Some Gzip else None.

Definition readerReader (codec : string) : option wrapper :=
  if String.eqb codec "multipart" then Some Multipart else None.

(** [partReader]: [(ctor, true, nil)], [(nil, false, nil)] or an error. *)
Definition partReader (codec : string) : build_error + option leaf_codec :=
  if String.eqb codec "all-bytes" then inr (Some AllBytes)
  else if String.eqb codec "lines" then inr (Some Lines)
  else if String.eqb codec "csv" then inr (Some Csv)
  else if String.eqb codec "tar" then inr (Some Tar)
  else if HasPrefix codec "delim:" then
    let by_ := TrimPrefix codec "delim:" in
    if String.eqb by_ "" then inl EmptyDelimiter
    else inr (Some (Delim by_))
  else if HasPrefix codec "chunker:" then
    match ParseUint (TrimPrefix codec "chunker:") with
    | inl err => inl (InvalidChunkSize (TrimPrefix codec "chunker:") err)
    | inr chunkSize => inr (Some (Chunker chunkSize))
    end
  else inr None.

(** The loop of [chainedReader] over the tokens still to read; [prev] is
    [codecs[i-1]], [all] the whole of [codecs]. *)
Fixpoint chain_loop (all : list string) (codecs : list string) (prev : string)
    (ioCtor : option io_ctor) (partCtor : option part_ctor)
    : build_error + part_ctor :=
  match codecs with
  | [] =>
      match partCtor with
      | None => inl (NoneRecognised all)
      | Some p => inr p
      end
  | codec :: rest =>
      match ioReader codec with
      | Some tmpIOCtor =>
          match partCtor with
          | Some _ => inl (CannotFollow prev codec)
          | None =>
              chain_loop all rest codec
                (Some (match ioCtor with
                       | Some io => chainIOCtors io tmpIOCtor
                       | None => tmpIOCtor
                       end)) partCtor
          end
      | None =>
          match partReader codec with
          | inl err => inl err
          | inr (Some leaf) =>
              match partCtor with
              | Some _ => inl (CannotFollow prev codec)
              | None =>
                  chain_loop all rest codec None
                    (Some (match ioCtor with
                           | Some io => chainIOIntoPartCtor io (Leaf leaf)
                           | None => Leaf leaf
                           end))
              end
          | inr None =>
              match readerReader codec with
              | None => inl (NotRecognised codec)
              | Some tmpReaderCtor =>
                  match partCtor with
                  | None => inl (NotPreceded codec)
                  | Some p =>
                      chain_loop all rest codec ioCtor
                        (Some (chainPartIntoReaderCtor p tmpReaderCtor))
                  end
              end
          end
      end
  end.

Definition chain_tokens (codecs : list string) : build_error + part_ctor :=
  chain_loop codecs codecs "" None None.

Definition chainedReader (codec : string) : build_error + part_ctor :=
  chain_tokens (Split "/" codec).

Definition convertDeprecatedCodec (codec : string) : string :=
  if String.eqb codec "csv-gzip" then "gzip/csv"
  else if String.eqb codec "tar-gzip" then "gzip/tar"
  else codec.

(** [GetReader] returns the constructor of [autoCodec] for ["auto"] and a
    chain otherwise. *)
Inductive reader_ctor : Type :=
  | AutoCodec
  | Built (p : part_ctor).

Definition GetReader (codec : string) : build_error + reader_ctor :=
  let codec := convertDeprecatedCodec codec in
  if String.eqb codec "auto" then inr AutoCodec
  else match chainedReader codec with
       | inl e => inl e
       | inr p => inr (Built p)
       end.

(** The constructor returned by [autoCodec], applied to a path: the codec
    is chosen from the path and resolved by [GetReader]. *)
Definition auto_construct (path : string) : build_error + reader_ctor :=
  match GetReader (autoCodec path) with
  | inl err => inl (FailedToInfer err)
  | inr ctor => inr ctor
  end.

Example chainedReader_examples :
  chainedReader "gzip/csv" = inr (chainIOIntoPartCtor Gzip (Leaf Csv)) /\
  chainedReader "lines/multipart" = inr (chainPartIntoReaderCtor (Leaf Lines) Multipart) /\
  chainedReader "delim:foobar" = inr (Leaf (Delim "foobar")) /\
  chainedReader "chunker:1024" = inr (Leaf (Chunker 1024)) /\
  chainedReader "chunker:x" = inl (InvalidChunkSize "x" ErrSyntax) /\
  chainedReader "delim:" = inl EmptyDelimiter /\
  chainedReader "csv/gzip" = inl (CannotFollow "csv" "gzip") /\
  chainedReader "multipart" = inl (NotPreceded "multipart") /\
  chainedReader "gzip" = inl (NoneRecognised ["gzip"]) /\
  chainedReader "" = inl (NotRecognised "") /\
  error_text (CannotFollow "csv" "gzip") = "unable to follow codec 'csv' with 'gzip'".
Proof. repeat split; vm_compute; reflexivity. Qed.

(** The constructor of [n] byte transforms, a leaf and [m] wrappers. *)
Fixpoint gzips (n : nat) : io_ctor :=
  match n with
  | O => Gzip
  | S k => chainIOCtors (gzips k) Gzip
  end.

Definition with_gzips (n : nat) (leaf : leaf_codec) : part_ctor :=
  match n with
  | O => Leaf leaf
  | S k => chainIOIntoPartCtor (gzips k) (Leaf leaf)
  end.

Fixpoint wrapped (m : nat) (p : part_ctor) : part_ctor :=
  match m with
  | O => p
  | S k => chainPartIntoReaderCtor (wrapped k p) Multipart
  end.

Definition assembled (n : nat) (leaf : leaf_codec) (m : nat) : part_ctor :=
  wrapped m (with_gzips n leaf).

Lemma ioReader_gzip codec : ioReader codec <> None <-> codec = "gzip".
Proof.
  unfold ioReader. destruct (String.eqb_spec codec "gzip"); split; congruence.
Qed.

Lemma readerReader_multipart codec : readerReader codec <> None <-> codec = "multipart".
Proof.
  unfold readerReader. destruct (String.eqb_spec codec "multipart"); split; congruence.
Qed.

Lemma partReader_not_gzip codec leaf :
  partReader codec = inr (Some leaf) -> ioReader codec = None.
Proof.
  unfold ioReader. destruct (String.eqb_spec codec "gzip") as [->|]; [|reflexivity].
  vm_compute. discriminate.
Qed.

Lemma wrapped_inside m p :
  wrapped m (chainPartIntoReaderCtor p Multipart) =
  chainPartIntoReaderCtor (wrapped m p) Multipart.
Proof. induction m; simpl; congruence. Qed.

(** Once a leaf is read, only wrappers may follow. *)
Lemma chain_loop_wrappers all rest : forall prev p q,
  chain_loop all rest prev None (Some p) = inr q <->
  exists m, rest = repeat "multipart" m /\ q = wrapped m p.
Proof.
  induction rest as [|codec rest IH]; intros prev p q; simpl.
  - split.
    + intros [= <-]. exists 0%nat. split; reflexivity.
    + intros (m & Hm & ->). destruct m; [reflexivity | discriminate].
  - destruct (ioReader codec) eqn:Eio.
    { split; [discriminate|]. intros ([|m] & Hm & _); [discriminate|].
      simpl in Hm. inversion Hm; subst. discriminate. }
    destruct (partReader codec) as [err|[leaf|]] eqn:Ep.
    { split; [discriminate|]. intros ([|m] & Hm & _); [discriminate|].
      simpl in Hm. inversion Hm; subst. discriminate. }
    { split; [discriminate|]. intros ([|m] & Hm & _); [discriminate|].
      simpl in Hm. inversion Hm; subst. discriminate. }
    destruct (readerReader codec) as [[]|] eqn:Er.
    + assert (codec = "multipart") as ->.
      { apply readerReader_multipart. congruence. }
      rewrite IH. split.
      * intros (m & -> & ->). exists (S m). split; [reflexivity|].
        simpl. apply wrapped_inside.
      * intros ([|m] & Hm & ->); [discriminate|]. simpl in Hm. inversion Hm; subst.
        exists m. split; [reflexivity|]. simpl. symmetry. apply wrapped_inside.
    + split; [discriminate|]. intros ([|m] & Hm & _); [discriminate|].
      simpl in Hm. inversion Hm; subst. discriminate.
Qed.

(** Before the leaf, with [k] byte transforms already chained. *)
Definition chained_so_far (k : nat) : option io_ctor :=
  match k with
  | O => None
  | S j => Some (gzips j)
  end.

Lemma chain_loop_prefix all codecs : forall prev k q,
  chain_loop all codecs prev (chained_so_far k) None = inr q <->
  exists n t leaf m,
    codecs = (repeat "gzip" n ++ t :: repeat "multipart" m)%list /\
    partReader t = inr (Some leaf) /\
    q = assembled (k + n) leaf m.
Proof.
  induction codecs as [|codec rest IH]; intros prev k q; simpl.
  - split; [discriminate|]. intros (n & t & leaf & m & H & _). destruct n; discriminate.
  - destruct (ioReader codec) eqn:Eio.
    + assert (codec = "gzip") as ->. { apply ioReader_gzip. congruence. }
      vm_compute in Eio. inversion Eio; subst. clear Eio.
      replace (Some (match chained_so_far k with
                     | Some io => chainIOCtors io Gzip
                     | None => Gzip
                     end)) with (chained_so_far (S k)) by (destruct k; reflexivity).
      rewrite IH. split.
      * intros (n & t & leaf & m & -> & Ht & ->).
        exists (S n), t, leaf, m. repeat split; auto. f_equal. lia.
      * intros ([|n] & t & leaf & m & H & Ht & ->); simpl in H; inversion H; subst.
        -- vm_compute in Ht. discriminate.
        -- exists n, t, leaf, m. repeat split; auto. f_equal. lia.
    + destruct (partReader codec) as [err|[leaf|]] eqn:Ep.
      * split; [discriminate|].
        intros ([|n] & t & leaf & m & H & Ht & _); simpl in H; inversion H; subst;
          [congruence | discriminate].
      * replace (Some (match chained_so_far k with
                       | Some io => chainIOIntoPartCtor io (Leaf leaf)
                       | None => Leaf leaf
                       end)) with (Some (with_gzips k leaf)) by (destruct k; reflexivity).
        rewrite chain_loop_wrappers. split.
        -- intros (m & -> & ->). exists 0%nat, codec, leaf, m.
           rewrite Nat.add_0_r. repeat split; auto.
        -- intros ([|n] & t & leaf' & m & H & Ht & ->); simpl in H; inversion H; subst.
           ++ rewrite Ep in Ht. inversion Ht; subst. exists m.
              rewrite Nat.add_0_r. split; reflexivity.
           ++ discriminate.
      * destruct (readerReader codec) as [[]|]; split; try discriminate;
          intros ([|n] & t & leaf & m & H & Ht & _); simpl in H; inversion H; subst;
          try congruence; discriminate.
Qed.

(** X1.  [chainedReader] accepts exactly the token sequences made of any
    number of [gzip], one leaf codec that [partReader] accepts, and any
    number of [multipart]; what it returns is the chain of the byte
    transforms into the leaf, wrapped once per [multipart]. *)
Theorem chainedReader_grammar (codecs : list string) (q : part_ctor) :
  chain_tokens codecs = inr q <->
  exists n t leaf m,
    codecs = (repeat "gzip" n ++ t :: repeat "multipart" m)%list /\
    partReader t = inr (Some leaf) /\
    q = assembled n leaf m.
Proof. unfold chain_tokens. apply (chain_loop_prefix codecs codecs "" 0 q). Qed.

Example deprecated_aliases :
  GetReader "csv-gzip" = GetReader "gzip/csv" /\
  GetReader "tar-gzip" = GetReader "gzip/tar" /\
  GetReader "auto" = inr AutoCodec.
Proof. repeat split; vm_compute; reflexivity. Qed.

Lemma autoCodec_choices path :
  In (autoCodec path) ["all-bytes"; "csv"; "tar"; "gzip/tar"].
Proof.
  unfold autoCodec. destruct (Ext_never_csv_gz path) as [H1 H2].
  destruct (HasSuffix path ".tar.gzip"); [simpl; auto|].
  destruct (HasSuffix path ".tar.gz"); [simpl; auto|].
  destruct (String.eqb_spec (Ext path) ".csv"); [simpl; auto|].
  destruct (String.eqb_spec (Ext path) ".csv.gz"); [contradiction|].
  destruct (String.eqb_spec (Ext path) ".csv.gzip"); [contradiction|]. simpl.
  destruct (String.eqb_spec (Ext path) ".tar"); [simpl; auto|].
  destruct (String.eqb_spec (Ext path) ".tgz"); simpl; auto.
Qed.

(** X2.  The constructor of the [auto] codec never fails to infer a codec:
    whatever the path, [GetReader] accepts the codec chosen, and the reader
    built is all-bytes, csv, tar or gzip into tar. *)
Theorem auto_construct_succeeds (path : string) :
  In (auto_construct path)
    [inr (Built (Leaf AllBytes)); inr (Built (Leaf Csv)); inr (Built (Leaf Tar));
     inr (Built (chainIOIntoPartCtor Gzip (Leaf Tar)))].
Proof.
  unfold auto_construct.
  destruct (autoCodec_choices path) as [<-|[<-|[<-|[<-|[]]]]]; vm_compute; auto.
Qed.

(** The reader a constructor makes: [allBytesReader] or one of the five
    readers with a pending counter at the leaf, a [multipartReader] per
    wrapper; byte transforms change the bytes read, not the reader. *)
Fixpoint reader_of (Get : Part -> list Byte.byte) (p : part_ctor) : Reader :=
  match p with
  | Leaf AllBytes => allBytesReader
  | Leaf _ => leafReader
  | chainIOIntoPartCtor _ second => reader_of Get second
  | chainPartIntoReaderCtor first Multipart => multipartReader Get (reader_of Get first)
  end.

Fixpoint leaf_of (p : part_ctor) : leaf_codec :=
  match p with
  | Leaf c => c
  | chainIOIntoPartCtor _ second => leaf_of second
  | chainPartIntoReaderCtor first _ => leaf_of first
  end.

Lemma reader_of_guarded Get p : leaf_of p <> AllBytes -> guarded (reader_of Get p).
Proof.
  induction p as [c|io p IH|p IH []]; simpl; intros H.
  - destruct c; try congruence; apply leaf_guarded.
  - now apply IH.
  - apply multipart_guarded. now apply IH.
Qed.

Lemma partReader_all_bytes t : partReader t = inr (Some AllBytes) -> t = "all-bytes".
Proof.
  unfold partReader.
  destruct (String.eqb_spec t "all-bytes"); [auto|].
  repeat (destruct (String.eqb t _); [discriminate|]).
  destruct (HasPrefix t "delim:").
  { destruct (String.eqb _ ""); discriminate. }
  destruct (HasPrefix t "chunker:"); [|discriminate].
  destruct (ParseUint _); discriminate.
Qed.

Lemma leaf_of_assembled n leaf m : leaf_of (assembled n leaf m) = leaf.
Proof.
  unfold assembled. induction m; simpl; [|assumption].
  destruct n; reflexivity.
Qed.

(** X3.  Every reader built from a codec string that [chainedReader]
    accepts and that does not name [all-bytes] fires the source
    acknowledgement at most once, whatever the consumer calls. *)
Theorem built_reader_single_fire (Get : Part -> list Byte.byte) (codec : string)
    (p : part_ctor) :
  chainedReader codec = inr p -> ~ In "all-bytes" (Split "/" codec) ->
  forall tr st st',
    rFresh (reader_of Get p) st -> exec (reader_of Get p) tr st = Done st' ->
    (length (rFired (reader_of Get p) st') <= 1)%nat.
Proof.
  intros Hp Hno. apply guarded_at_most_once, reader_of_guarded.
  apply chainedReader_grammar in Hp. destruct Hp as (n & t & leaf & m & Hc & Ht & ->).
  rewrite leaf_of_assembled. intros ->. apply Hno. rewrite Hc.
  apply partReader_all_bytes in Ht. subst t.
  apply in_or_app. right. now left.
Qed.

Lemma built_reader_single_fire_witness :
  (length (rFired (reader_of payload_of
                     (chainPartIntoReaderCtor (chainIOIntoPartCtor Gzip (Leaf Lines))
                        Multipart))
     (match exec (reader_of payload_of
                    (chainPartIntoReaderCtor (chainIOIntoPartCtor Gzip (Leaf Lines))
                       Multipart))
              [CallNext 5; CallClose; CallAck [Some tt; Some tt] None; CallClose]
              (new_leaf two_lines no_answer None)
      with Done st => st | _ => new_leaf two_lines no_answer None end)) <= 1)%nat.
Proof.
  assert (Hno : ~ In "all-bytes" (Split "/" "gzip/lines/multipart")).
  { vm_compute. intros [H|[H|[H|[]]]]; discriminate. }
  apply (built_reader_single_fire payload_of "gzip/lines/multipart"
           (chainPartIntoReaderCtor (chainIOIntoPartCtor Gzip (Leaf Lines)) Multipart)
           eq_refl Hno
           [CallNext 5; CallClose; CallAck [Some tt; Some tt] None; CallClose]
           (new_leaf two_lines no_answer None)).
  - repeat split.
  - vm_compute. reflexivity.
Defined.

End CodecString.

(** ** internal/codec/reader.go: the split function of [delim:x] *)

Module Delimiter.

Local Open Scope list_scope.

(** [bytes.HasPrefix(data, sep)] *)
Fixpoint has_prefix (data sep : list Byte.byte) {struct sep} : bool :=
  match sep, data with
  | [], _ => true
  | s :: sep', d :: data' => Byte.eqb d s && has_prefix data' sep'
  | _ :: _, [] => false
  end.

(** [bytes.Index(data, sep)]: the first index at which [sep] occurs;
    [None] is Go's [-1]. *)
Fixpoint Index (data sep : list Byte.byte) : option nat :=
  match data with
  | [] => if has_prefix [] sep then Some 0%nat else None
  | _ :: rest =>
      if has_prefix data sep then Some 0%nat
      else S <$> Index rest sep
  end.

(** The function given to [scanner.Split] by [newCustomDelimReader]:
    [(advance, token)], the token [None] when it is [nil]. *)
Definition split (delimBytes data : list Byte.byte) (atEOF : bool)
    : nat * option (list Byte.byte) :=
  if atEOF && (Z.of_nat (length data) =? 0) then (0%nat, None)
  else
    match Index data delimBytes with
    | Some i => ((i + length delimBytes)%nat, Some (take i data))
    | None => if atEOF then (length data, Some data) else (0%nat, None)
    end.

(** The scanner on input that is all in its buffer, at the end of the
    stream: it takes the token, advances and calls the function again,
    until no token is returned.  One unit of [fuel] is one call. *)
Fixpoint scan_all (fuel : nat) (delimBytes data : list Byte.byte)
    : list (list Byte.byte) :=
  match fuel with
  | O => []
  | S fuel' =>
      match split delimBytes data true with
      | (advance, Some token) => token :: scan_all fuel' delimBytes (drop advance data)
      | (_, None) => []
      end
  end.

Definition tokens (delimBytes data : list Byte.byte) : list (list Byte.byte) :=
  scan_all (S (length data)) delimBytes data.


Lemma has_prefix_app data sep : has_prefix (sep ++ data) sep = true.
Proof.
  induction sep as [|s sep IH]; simpl; [reflexivity|].
  now rewrite (Byte.byte_dec_lb eq_refl), IH.
Qed.

Lemma has_prefix_split data sep :
  has_prefix data sep = true -> data = sep ++ drop (length sep) data.
Proof.
  revert data. induction sep as [|s sep IH]; intros data H; simpl in *.
  - now rewrite drop_0.
  - destruct data as [|d data]; [discriminate|].
    apply andb_true_iff in H. destruct H as [Hd H].
    apply Byte.byte_dec_bl in Hd. subst. simpl. f_equal. now apply IH.
Qed.

Lemma has_prefix_longer data more sep :
  has_prefix data sep = true -> has_prefix (data ++ more) sep = true.
Proof.
  revert data. induction sep as [|s sep IH]; intros data H; simpl in *; [reflexivity|].
  destruct data as [|d data]; [discriminate|]. simpl.
  apply andb_true_iff in H. destruct H as [-> H]. simpl. now apply IH.
Qed.

Lemma has_prefix_shorter data more sep :
  has_prefix (data ++ more) sep = true -> (length sep <= length data)%nat ->
  has_prefix data sep = true.
Proof.
  revert data. induction sep as [|s sep IH]; intros data E Hlen; [reflexivity|].
  destruct data as [|x data]; simpl in *; [lia|].
  apply andb_true_iff in E. destruct E as [-> E]. simpl.
  apply IH; [assumption | lia].
Qed.

Lemma Index_found data sep i :
  Index data sep = Some i ->
  data = take i data ++ sep ++ drop (i + length sep) data.
Proof.
  revert i. induction data as [|d data IH]; intros i; simpl.
  - destruct sep; [|discriminate]. intros [= <-]. reflexivity.
  - destruct (has_prefix (d :: data) sep) eqn:E.
    + intros [= <-]. simpl. now apply has_prefix_split.
    + destruct (Index data sep) as [j|] eqn:Ej; [|discriminate].
      intros [= <-]. simpl. f_equal. now apply IH.
Qed.

Lemma Index_bound data sep i : Index data sep = Some i -> (i <= length data)%nat.
Proof.
  revert i. induction data as [|d data IH]; intros i; simpl.
  - destruct (has_prefix [] sep); [|discriminate]. intros [= <-]. lia.
  - destruct (has_prefix (d :: data) sep); [intros [= <-]; lia|].
    destruct (Index data sep) as [j|]; [|discriminate].
    intros [= <-]. specialize (IH j eq_refl). lia.
Qed.


Lemma Index_longer data more sep i :
  Index data sep = Some i -> Index (data ++ more) sep = Some i.
Proof.
  revert i. induction data as [|d data IH]; intros i; simpl.
  - destruct sep; [|discriminate]. intros [= <-]. now destruct more.
  - destruct (has_prefix (d :: data) sep) eqn:E.
    + intros [= <-]. pose proof (has_prefix_longer (d :: data) more sep E) as E2.
      simpl in E2. now rewrite E2.
    + destruct (Index data sep) as [j|] eqn:Ej; [|discriminate].
      intros [= <-].
      destruct (has_prefix (d :: data ++ more) sep) eqn:E'.
      * exfalso. revert E E' Ej. clear. intros E E' Ej.
        assert (Hlen : (length sep <= length (d :: data))%nat \/
                       (length (d :: data) < length sep)%nat) by lia.
        destruct Hlen as [Hlen|Hlen].
        -- assert (has_prefix (d :: data) sep = true); [|congruence].
           now apply (has_prefix_shorter (d :: data) more sep).
        -- apply Index_found in Ej. apply (f_equal (@length _)) in Ej.
           rewrite !length_app in Ej. simpl in Hlen. lia.
      * now rewrite (IH j eq_refl).
Qed.




Example delim_tokens_example :
  tokens [Byte.x2c] [Byte.x61; Byte.x2c; Byte.x2c; Byte.x62] =
    [[Byte.x61]; []; [Byte.x62]] /\
  tokens [Byte.x61; Byte.x61] [Byte.x78; Byte.x61; Byte.x61; Byte.x61] =
    [[Byte.x78]; [Byte.x61]].
Proof. split; reflexivity. Qed.

(** X5.  With a non-empty delimiter, a token the split function returns
    before the end of the stream is final: with more bytes in the buffer,
    at the end of the stream or not, the same call returns the same token
    and the same advance.  And before the end of the stream a token is only
    ever returned together with its delimiter. *)
Theorem split_token_is_stable (delim data more token : list Byte.byte)
    (advance : nat) (atEOF : bool) :
  delim <> [] ->
  split delim data false = (advance, Some token) ->
  split delim (data ++ more) atEOF = (advance, Some token) /\
  data = token ++ delim ++ drop advance data.
Proof.
  intros Hd. unfold split. simpl.
  destruct (Index data delim) as [i|] eqn:Ei; [|discriminate].
  intros [= <- <-]. rewrite (Index_longer _ more _ _ Ei).
  pose proof (Index_found _ _ _ Ei) as Hs.
  pose proof (Index_bound _ _ _ Ei) as Hi.
  split; [|exact Hs].
  rewrite take_app_le by assumption.
  destruct atEOF; simpl; [|reflexivity].
  destruct (Z.of_nat (length (data ++ more)) =? 0) eqn:E; [|reflexivity].
  apply Z.eqb_eq in E. rewrite length_app in E.
  assert (data = []) by (destruct data; [reflexivity | simpl in E; lia]).
  subst. simpl in Ei. destruct delim; [congruence | discriminate].
Qed.

Lemma split_token_is_stable_witness :
  split [Byte.x2c] ([Byte.x61; Byte.x2c; Byte.x62] ++ [Byte.x63; Byte.x2c]) true =
    (2%nat, Some [Byte.x61]) /\
  [Byte.x61; Byte.x2c; Byte.x62] =
    [Byte.x61] ++ [Byte.x2c] ++ drop 2 [Byte.x61; Byte.x2c; Byte.x62].
Proof.
  apply (split_token_is_stable [Byte.x2c] [Byte.x61; Byte.x2c; Byte.x62]
           [Byte.x63; Byte.x2c] [Byte.x61] 2 true).
  - discriminate.
  - reflexivity.
Defined.

End Delimiter.

(** ** internal/codec/reader.go: what the source acknowledgement is told *)

Module Lifecycle.
Import Codec.

Local Open Scope list_scope.

(** The effect of [a.sourceAck(ctx, err)] on the log. *)
Lemma fire_log err a :
  leaf_ok a ->
  fired (sourceAck (snd (fire err a))) =
  if once_done (sourceAck a) then fired (sourceAck a) else [err].
Proof.
  unfold leaf_ok, cell_ok, fire, ackOnce, call_fn.
  destruct (once_done (sourceAck a)) eqn:E; simpl; intros H; [reflexivity|].
  destruct (fired (sourceAck a)); [reflexivity | discriminate].
Qed.

Lemma unfired_cell a : leaf_ok a -> fired (sourceAck a) = [] -> once_done (sourceAck a) = false.
Proof.
  unfold leaf_ok, cell_ok. intros H E. rewrite E in H.
  destruct (once_done _); [discriminate | reflexivity].
Qed.

Lemma fired_cell a x : leaf_ok a -> fired (sourceAck a) = [x] -> once_done (sourceAck a) = true.
Proof.
  unfold leaf_ok, cell_ok. intros H E. rewrite E in H.
  destruct (once_done _); [reflexivity | discriminate].
Qed.

(** X6.  A failure is reported at once.  On a reader whose source
    acknowledgement has not fired, [Next] failing with anything but
    [io.EOF] fires it with that error, and so does an ack called with an
    error, whatever is pending. *)
Theorem errors_are_reported_at_once (a : leaf) (e : error) :
  leaf_ok a -> fired (sourceAck a) = [] ->
  (forall a', leaf_Next a = (Fail e, a') -> error_eqb_EOF e = false ->
     fired (sourceAck a') = [Some e]) /\
  fired (sourceAck (snd (leaf_ack (Some e) a))) = [Some e].
Proof.
  intros Hok Hf. pose proof (unfired_cell a Hok Hf) as Hu.
  assert (Hfire : forall b, sourceAck b = sourceAck a ->
            fired (sourceAck (snd (fire (Some e) b))) = [Some e]).
  { intros b Hb. rewrite fire_log by (unfold leaf_ok; now rewrite Hb).
    now rewrite Hb, Hu. }
  split.
  - intros a' Hnext Hne. unfold leaf_Next in Hnext.
    destruct (src a) as [scan|scan|headers read|read|next].
    + unfold scanner_Next in Hnext.
      destruct (scan (pos a)) as [t|[e'|]]; inversion Hnext; subst;
        [now apply Hfire | discriminate].
    + unfold scanner_Next in Hnext.
      destruct (scan (pos a)) as [t|[e'|]]; inversion Hnext; subst;
        [now apply Hfire | discriminate].
    + unfold csv_Next in Hnext. destruct (read (pos a)) as [rec|e']; [discriminate|].
      destruct (error_eqb_EOF e') eqn:E; inversion Hnext; subst; [congruence|].
      now apply Hfire.
    + unfold chunker_Next in Hnext.
      destruct (finished a); [inversion Hnext; subst; discriminate|].
      destruct (read (pos a)) as [data [e'|]]; simpl in Hnext.
      * destruct (error_eqb_EOF e') eqn:E.
        -- destruct (0 <? _); [discriminate|]. inversion Hnext; subst. congruence.
        -- inversion Hnext; subst. now apply Hfire.
      * destruct (0 <? _); discriminate.
    + unfold tar_Next in Hnext. destruct (next (pos a)) as [e'|content [e'|]].
      * destruct (error_eqb_EOF e') eqn:E; inversion Hnext; subst; [congruence|].
        now apply Hfire.
      * inversion Hnext; subst. now apply Hfire.
      * discriminate.
  - unfold leaf_ack. now apply Hfire.
Qed.

Lemma errors_are_reported_at_once_witness :
  fired (sourceAck (snd (leaf_Next
     (new_leaf (TarSrc (fun _ => TarEntry [] (Some (errors_New "short read"))))
        no_answer None)))) = [Some (errors_New "short read")] /\
  fired (sourceAck (snd (leaf_ack (Some (errors_New "short read"))
     (new_leaf two_lines no_answer None)))) = [Some (errors_New "short read")].
Proof.
  split.
  - apply (proj1 (errors_are_reported_at_once
             (new_leaf (TarSrc (fun _ => TarEntry [] (Some (errors_New "short read"))))
                no_answer None) (errors_New "short read") eq_refl eq_refl));
      reflexivity.
  - apply (proj2 (errors_are_reported_at_once (new_leaf two_lines no_answer None)
             (errors_New "short read") eq_refl eq_refl)).
Defined.

(** X7.  What [Close] tells a source that has not been acknowledged yet:
    the shutdown error when the end of the stream was not reached, even
    with nothing pending; [nil] when it was reached and nothing is pending;
    nothing while parts of a finished stream are pending. *)
Theorem close_report (a : leaf) :
  leaf_ok a -> fired (sourceAck a) = [] ->
  fired (sourceAck (snd (leaf_Close a))) =
  if negb (finished a) then [Some shutdown]
  else if pending a =? 0 then [None]
  else [].
Proof.
  intros Hok Hf. pose proof (unfired_cell a Hok Hf) as Hu.
  unfold leaf_Close. simpl. destruct (finished a) eqn:Efin; simpl.
  - destruct (pending a =? 0).
    + rewrite fire_log by assumption. now rewrite Hu.
    + exact Hf.
  - pose proof (fire_ok (Some shutdown) a Hok) as Hok1.
    pose proof (fire_log (Some shutdown) a Hok) as Hlog. rewrite Hu in Hlog.
    pose proof (fire_spent (Some shutdown) a) as Hsp.
    destruct (pending (snd (fire (Some shutdown) a)) =? 0).
    + rewrite fire_log by assumption. now rewrite Hsp.
    + exact Hlog.
Qed.

Lemma close_report_witness :
  fired (sourceAck (snd (leaf_Close (new_leaf two_lines no_answer None)))) =
  [Some shutdown].
Proof.
  apply (close_report (new_leaf two_lines no_answer None)); reflexivity.
Defined.

(** [Next] fires the source acknowledgement with an error or not at all. *)
Lemma leaf_Next_log a :
  leaf_ok a -> fired (sourceAck a) = [] ->
  fired (sourceAck (snd (leaf_Next a))) = [] \/
  exists e, fired (sourceAck (snd (leaf_Next a))) = [Some e].
Proof.
  intros Hok Hf. pose proof (unfired_cell a Hok Hf) as Hu.
  assert (Hfire : forall e b, sourceAck b = sourceAck a ->
            fired (sourceAck (snd (fire (Some e) b))) = [Some e]).
  { intros e b Hb. rewrite fire_log by (unfold leaf_ok; now rewrite Hb).
    now rewrite Hb, Hu. }
  unfold leaf_Next.
  destruct (src a) as [scan|scan|headers read|read|next].
  - unfold scanner_Next. destruct (scan (pos a)) as [t|[e|]]; simpl; auto.
    right. exists e. now apply Hfire.
  - unfold scanner_Next. destruct (scan (pos a)) as [t|[e|]]; simpl; auto.
    right. exists e. now apply Hfire.
  - unfold csv_Next. destruct (read (pos a)) as [rec|e]; simpl; auto.
    destruct (error_eqb_EOF e); simpl; auto. right. exists e. now apply Hfire.
  - unfold chunker_Next. destruct (finished a); simpl; auto.
    destruct (read (pos a)) as [data [e|]]; simpl.
    + destruct (error_eqb_EOF e); simpl.
      * destruct (0 <? _); simpl; auto.
      * right. exists e. now apply Hfire.
    + destruct (0 <? _); simpl; auto.
  - unfold tar_Next. destruct (next (pos a)) as [e|content [e|]]; simpl; auto.
    + destruct (error_eqb_EOF e); simpl; auto. right. exists e. now apply Hfire.
    + right. exists e. now apply Hfire.
Qed.

Lemma lifetime_ok tr a a' out closed :
  fresh_leaf a -> lifetime tr a 0 false = Some (a', out, closed) ->
  leaf_ok a' /\ tally a' out closed.
Proof.
  intros Hf E. split.
  - eapply (exec_preserves leafReader leaf_ok leaf_preserves); [|eapply lifetime_exec; eauto].
    destruct Hf as (_ & _ & _ & Ho & Hl). unfold leaf_ok, cell_ok. now rewrite Ho, Hl.
  - eapply lifetime_tally; [|exact E]. intros _.
    destruct Hf as (_ & _ & Hp & _). split; [exact Hp | discriminate].
Qed.

(** X8.  Success is reported only for a drained stream.  When a call of a
    consumer makes the source acknowledgement fire with [nil], the end of
    the stream has been seen, the counter of pending parts is zero, and the
    number of parts handed out and not acknowledged is a multiple of 2^32
    (the counter is an [int32]). *)
Theorem nil_only_when_drained (tr : list (call unit)) (c : call unit)
    (a a1 a2 : leaf) (out1 out2 : nat) (cl1 cl2 : bool) :
  fresh_leaf a ->
  lifetime tr a 0 false = Some (a1, out1, cl1) ->
  fired (sourceAck a1) = [] ->
  lifetime [c] a1 out1 cl1 = Some (a2, out2, cl2) ->
  fired (sourceAck a2) = [None] ->
  finished a2 = true /\ pending a2 = 0 /\ Z.of_nat out2 mod 2 ^ 32 = 0.
Proof.
  intros Hfresh E1 Hf1 E2 Hf2.
  destruct (lifetime_ok _ _ _ _ _ Hfresh E1) as [Hok T].
  pose proof (unfired_cell a1 Hok Hf1) as Hu. destruct (T Hu) as [Tp _].
  destruct c as [fuel|[] err|].
  - exfalso.
    assert (Ea : a2 = snd (leaf_Next a1)).
    { cbn [lifetime] in E2. destruct (leaf_Next a1). now inversion E2. }
    subst a2. destruct (leaf_Next_log a1 Hok Hf1) as [H|[e H]];
      rewrite H in Hf2; discriminate.
  - destruct out1 as [|o]; [discriminate|].
    assert (Ea : a2 = snd (leaf_ack err a1) /\ out2 = o).
    { cbn [lifetime] in E2. now inversion E2. }
    destruct Ea as [-> ->]. clear E2.
    revert Hf2. unfold leaf_ack.
    set (b := set_pending (wrap32 (pending a1 - 1)) a1).
    assert (Hb : leaf_ok b) by exact Hok.
    assert (Hbu : once_done (sourceAck b) = false) by exact Hu.
    cbv zeta. destruct err as [e|].
    + rewrite fire_log, Hbu by exact Hb. discriminate.
    + destruct ((pending b =? 0) && finished b) eqn:Ed.
      * intros _. apply andb_true_iff in Ed. destruct Ed as [Ep Efin].
        apply Z.eqb_eq in Ep. destruct (fire_fields None b) as [F1 F2].
        rewrite F1, F2. repeat split; auto.
        apply wrap32_zero_iff. rewrite <- Ep. subst b. simpl.
        rewrite Tp, <- Z.add_opp_r, wrap32_idem_add. f_equal. lia.
      * simpl. rewrite Hf1. discriminate.
  - assert (Ea : a2 = snd (leaf_Close a1) /\ out2 = out1).
    { cbn [lifetime] in E2. now inversion E2. }
    destruct Ea as [-> ->]. clear E2.
    rewrite close_report in Hf2 by assumption.
    destruct (finished a1) eqn:Efin; simpl in Hf2; [|discriminate].
    destruct (pending a1 =? 0) eqn:Ep; [|discriminate].
    apply Z.eqb_eq in Ep. unfold leaf_Close. rewrite Efin. cbn [negb].
    cbv zeta. rewrite Ep. cbn [Z.eqb snd].
    destruct (fire_fields None a1) as [F1 F2]. rewrite F1, F2.
    repeat split; auto. apply wrap32_zero_iff. congruence.
Qed.

Definition drained_sample : leaf := new_leaf empty_lines no_answer None.

Lemma nil_only_when_drained_witness :
  finished (snd (leaf_Close (snd (leaf_Next drained_sample)))) = true /\
  pending (snd (leaf_Close (snd (leaf_Next drained_sample)))) = 0 /\
  Z.of_nat 0 mod 2 ^ 32 = 0.
Proof.
  apply (nil_only_when_drained [CallNext 0] CallClose drained_sample
           (snd (leaf_Next drained_sample))
           (snd (leaf_Close (snd (leaf_Next drained_sample)))) 0 0 false true);
    [vm_compute; auto | reflexivity | reflexivity | reflexivity | reflexivity].
Defined.

End Lifecycle.

(** ** internal/bloblang/query/methods_structured.go: sequences *)

Module Structured.
Import Query.

Local Open Scope list_scope.

(** Two sequences of one kind, one after the other. *)
Definition seq_app (a b : value) : option value :=
  match a, b with
  | VString s, VString t => Some (VString (s +:+ t))
  | VBytes s, VBytes t => Some (VBytes (s ++ t))
  | VArray s, VArray t => Some (VArray (s ++ t))
  | _, _ => None
  end.

Lemma substring_all (t : string) : substring 0 (String.length t) t = t.
Proof. induction t as [|c t IH]; simpl; [reflexivity | now rewrite IH]. Qed.

Lemma substring_cut (t : string) : forall p : nat,
  (p <= String.length t)%nat ->
  substring 0 p t +:+ substring p (String.length t - p) t = t.
Proof.
  induction t as [|c t IH]; intros p Hp.
  - destruct p; [reflexivity | simpl in Hp; lia].
  - destruct p as [|p].
    + rewrite Nat.sub_0_r, substring_all. reflexivity.
    + simpl in Hp. change (String c (substring 0 p t +:+
                             substring p (String.length t - p) t) = String c t).
      f_equal. apply IH. lia.
Qed.

Lemma sub_seq_cut (x : value) (l p : Z) :
  seq_len x = Some l -> 0 <= p <= l ->
  seq_app (sub_seq x 0 p) (sub_seq x p l) = Some x.
Proof.
  intros Hx Hp. destruct x; simpl in Hx; try discriminate; inversion Hx; subst l; simpl.
  - rewrite Z.sub_0_r. f_equal. f_equal.
    replace (Z.to_nat (Z.of_nat (String.length s) - p))
      with (String.length s - Z.to_nat p)%nat by lia.
    apply substring_cut. lia.
  - rewrite Z.sub_0_r, drop_0. f_equal. f_equal.
    rewrite (take_ge (drop _ _)) by (rewrite length_drop; lia).
    apply take_drop.
  - rewrite Z.sub_0_r, drop_0. f_equal. f_equal.
    rewrite (take_ge (drop _ _)) by (rewrite length_drop; lia).
    apply take_drop.
Qed.

(** X9.  A sequence is the part before a cut followed by the part after
    it.  For a string, byte slice or array [x] and a bound [c] not above
    its length, [x.slice(0, c)] and [x.slice(c)] both succeed and their
    results, one after the other, are [x]; a negative [c] counts from the
    end in both positions, and one below [-|x|] cuts at the start. *)
Theorem slice_partition (x : value) (l c : Z) :
  seq_len x = Some l -> l < 2 ^ 63 -> in_int64 c -> c <= l ->
  exists a b,
    slice x 0 (Some c) = Done (inr a) /\
    slice x c None = Done (inr b) /\
    seq_app a b = Some x.
Proof.
  intros Hx Hl Hc Hcl.
  assert (Hl0 : 0 <= l) by (destruct x; simpl in Hx; try discriminate; inversion Hx; lia).
  assert (H0 : in_int64 0) by (unfold in_int64; lia).
  assert (Hsome : forall e, Some c = Some e -> in_int64 e) by (intros e [= <-]; exact Hc).
  assert (Hnone : forall e, @None Z = Some e -> in_int64 e) by discriminate.
  destruct (slice_apply_resolved x l 0 (Some c) Hx H0 Hsome Hl) as [Ha _].
  destruct (slice_apply_resolved x l c None Hx Hc Hnone Hl) as [Hb _].
  set (p := resolved_high l (Some c)) in *.
  assert (Ep : resolved_low l c = p /\ 0 <= p <= l).
  { subst p. unfold resolved_low, resolved_high. destruct (Z.ltb_spec c 0); lia. }
  destruct Ep as [Ep Hp].
  assert (E0 : resolved_low l 0 = 0) by reflexivity.
  assert (El : resolved_high l None = l) by (unfold resolved_high; lia).
  rewrite E0 in Ha. rewrite Ep, El in Hb.
  exists (sub_seq x 0 p), (sub_seq x p l). split; [|split].
  - unfold slice, sliceMethod.
    replace ((c >? 0) && (0 >=? c)) with false
      by (symmetry; apply andb_false_iff; rewrite Z.gtb_ltb, Z.geb_leb;
          destruct (Z.ltb_spec 0 c); [right; apply Z.leb_gt; lia | now left]).
    apply Ha. lia.
  - unfold slice, sliceMethod. apply Hb. lia.
  - now apply sub_seq_cut.
Qed.

Lemma slice_partition_witness :
  exists a b,
    slice (VString "foo bar") 0 (Some (-4)) = Done (inr a) /\
    slice (VString "foo bar") (-4) None = Done (inr b) /\
    seq_app a b = Some (VString "foo bar").
Proof.
  apply (slice_partition (VString "foo bar") 7 (-4));
    [reflexivity | reflexivity | unfold in_int64; lia | lia].
Defined.

(** *** [flatten] *)

(** The closure registered for [flatten]: [result] grows by [append]. *)
Definition flatten_step (result : list value) (child : value) : list value :=
  match child with
  | VArray t => result ++ t
  | _ => result ++ [child]
  end.

Definition flattenMethod (v : value) : qerror + value :=
  match v with
  | VArray array => inr (VArray (fold_left flatten_step array []))
  | _ => inl (NewTypeError v [ValueArray])
  end.

Example flatten_doc_example :
  flattenMethod (VArray [VString "foo"; VArray [VString "bar"; VString "baz"]; VString "buz"])
  = inr (VArray [VString "foo"; VString "bar"; VString "baz"; VString "buz"]).
Proof. reflexivity. Qed.

Lemma flatten_groups_from (groups : list (list value)) : forall acc,
  fold_left flatten_step (map VArray groups) acc = acc ++ concat groups.
Proof.
  induction groups as [|g groups IH]; intros acc; simpl.
  - now rewrite app_nil_r.
  - rewrite IH. now rewrite app_assoc.
Qed.

Lemma flatten_flat_from (a : list value) : forall acc,
  Forall (fun c => is_array c = false) a ->
  fold_left flatten_step a acc = acc ++ a.
Proof.
  induction a as [|c a IH]; intros acc H; simpl.
  - now rewrite app_nil_r.
  - inversion H as [|? ? Hc Ha]; subst. rewrite IH by exact Ha.
    destruct c; simpl in *; try discriminate; now rewrite <- app_assoc.
Qed.

(** X10.  [flatten] removes exactly one level of nesting.  An array of
    arrays becomes the concatenation of its elements, whatever these
    contain, so that arrays nested deeper stay; and an array without array
    elements comes back unchanged. *)
Theorem flatten_one_level :
  (forall groups : list (list value),
     flattenMethod (VArray (map VArray groups)) = inr (VArray (concat groups))) /\
  (forall a : list value,
     forallb (fun c => negb (is_array c)) a = true ->
     flattenMethod (VArray a) = inr (VArray a)).
Proof.
  split.
  - intros groups. unfold flattenMethod. now rewrite flatten_groups_from.
  - intros a H. unfold flattenMethod. rewrite flatten_flat_from; [reflexivity|].
    apply Forall_forall. intros c Hc. apply list_elem_of_In in Hc.
    rewrite forallb_forall in H. specialize (H c Hc). now apply negb_true_iff.
Qed.

(** *** [index] *)

Definition index_error (i len : Z) : qerror :=
  Errorf ("index '" +:+ pretty i +:+ "' was out of bounds for array size: " +:+ pretty len).

(** The two cases of the closure are the same text up to the element
    type; [array[i]] panics out of range. *)
Definition index_at {A} (array : list A) (index : Z) : run (qerror + A) :=
  let len := Z.of_nat (length array) in
  let i := index in
  let i := if i <? 0 then wrap64 (len + i) else i in
  if (i <? 0) || (i >=? len) then Done (inl (index_error i len))
  else match array !! Z.to_nat i with
       | Some x => Done (inr x)
       | None => Panicked
       end.

Definition indexMethod (index : Z) (v : value) : run (qerror + value) :=
  match v with
  | VArray array => index_at array index
  | VBytes array =>
      match index_at array index with
      | Done (inr b) => Done (inr (VInt KInt64 (Z.of_N (Byte.to_N b))))
      | Done (inl e) => Done (inl e)
      | Panicked => Panicked
      | Starved => Starved
      end
  | _ => Done (inl (NewTypeError v [ValueArray]))
  end.

Example index_doc_examples :
  indexMethod (-1) (VArray [VString "rachel"; VString "stevens"])
    = Done (inr (VString "stevens")) /\
  indexMethod (-1) (VBytes [Byte.x66; Byte.x6f; Byte.x6e]) = Done (inr (VInt KInt64 110)).
Proof. split; reflexivity. Qed.




End Structured.
